(** * Grimmeroo: blueprints and the resolution of their raw materials

    A shallow embedding of [grimmeroo.py]: the [Blueprint] record, the
    [Blueprints] collection with its four methods ([add_blueprint],
    [find_keyword], [find_materials], [size]), the function [pack_list], and
    what [create_blueprint] makes of a page once it is fetched and parsed.

    Python values are modelled as follows.
    - A [str] is the list of its code points, each a number; [int] is [Z]; a
      position in a list is a [nat].
    - What the language knows about Unicode is not written in the program:
      [str.lower] and the table of the decimal digits (the regular
      expression class of the digits, and the digits that [int] reads) are
      parameters, [lower] and [decimal], of the definitions that use them.
      The examples run with parts of these tables: [lower_ascii] and
      [decimal_ascii] for ASCII text, [lower_latin1] and
      [decimal_arabic_indic] for a little more.
    - [Blueprint.materials] is a [dict] whose iteration order (the order of
      insertion) decides the order of [materials_list]: an association list,
      keys unique in a well-formed dict ([dict_wf]).
    - [Blueprints.blueprints] and the dicts that are returned are used as
      maps only: [gmap].
    - The methods run in a small monad that threads the one [Blueprints]
      object and the standard output, and whose outcomes are a returned
      value, a raised exception or, for the [for] loop that appends to the
      list it walks, a step budget that ran out. *)

From Stdlib Require Import ZArith NArith Ascii String.
From stdpp Require Import gmap strings list fin_maps relations.

Local Open Scope Z_scope.
Local Open Scope nat_scope.

(** ** Strings *)

Abbreviation str := (list N).

(** A literal of the program, all of them ASCII: its code points. *)
Definition lit (s : string) : str := N_of_ascii <$> list_ascii_of_string s.
Arguments lit : simpl never.

(** ** Blueprint *)

Record Blueprint := {
  name : str;
  type : str;
  materials : list (str * Z)
}.

(** The key set of a well-formed [dict] has no repetition. *)
Definition dict_wf {V} (d : list (str * V)) : Prop := NoDup d.*1.

(** [Blueprint.__init__] *)
Definition Blueprint_init : Blueprint :=
  {| name := []; type := []; materials := [] |}.

(** [Blueprint.materials_list]: [[mat] * qty] is the empty list when [qty]
    is not positive. *)
Definition materials_list (self : Blueprint) : list str :=
  let result := (λ '(mat, qty), replicate (Z.to_nat qty) mat) <$> materials self in
  mjoin result.

(** ** Built-in operations of the language *)

(** [a_list.count( k )] *)
Definition count (k : str) (a_list : list str) : nat :=
  length (filter (λ x, x = k) a_list).

(** [s in t] for two strings: [s] occurs in [t] as a contiguous run. *)
Fixpoint str_in (s t : str) : bool :=
  bool_decide (s `prefix_of` t) ||
  match t with
  | [] => false
  | _ :: t' => str_in s t'
  end.

(** [s.lower()] on ASCII text: the letters A to Z go to a to z. *)
Definition lower_ascii (s : str) : str :=
  (λ c, if ((65 <=? c) && (c <=? 90))%N then (c + 32)%N else c) <$> s.

(** [s.lower()] on text of code points below 256: the letters A to Z, and
    the capital letters with accents (192 to 222, the multiplication sign
    215 apart), are 32 below their lower-case forms. *)
Definition lower_latin1 (s : str) : str :=
  (λ c, if ((65 <=? c) && (c <=? 90) ||
            (192 <=? c) && (c <=? 222) && negb (c =? 215))%N
        then (c + 32)%N else c) <$> s.

(** The decimal digits of ASCII text, each with its value. *)
Definition decimal_ascii (c : N) : option N :=
  if ((48 <=? c) && (c <=? 57))%N then Some (c - 48)%N else None.

(** The ASCII digits and the Arabic-Indic digits (1632 to 1641). *)
Definition decimal_arabic_indic (c : N) : option N :=
  if ((1632 <=? c) && (c <=? 1641))%N then Some (c - 1632)%N else decimal_ascii c.

(** ** Outcomes and the monad of the methods *)

Inductive exn := KeyError (key : str).

Inductive outcome (A : Type) :=
  | Returned (a : A)
  | Raised (e : exn)
  | Unfinished.
Arguments Returned {A} a.
Arguments Raised {A} e.
Arguments Unfinished {A}.

(** What a method can read and write: the attribute [blueprints] of the
    [Blueprints] object and the lines printed so far. *)
Record World := {
  blueprints : gmap str Blueprint;
  stdout : list str
}.

Definition M (A : Type) : Type := World → outcome A * World.

#[export] Instance M_ret : MRet M := λ A a w, (Returned a, w).
#[export] Instance M_bind : MBind M := λ A B f m w,
  match m w with
  | (Returned a, w') => f a w'
  | (Raised e, w') => (Raised e, w')
  | (Unfinished, w') => (Unfinished, w')
  end.

Definition raise {A} (e : exn) : M A := λ w, (Raised e, w).
Definition out_of_steps {A} : M A := λ w, (Unfinished, w).

(** [self.blueprints] *)
Definition self_blueprints : M (gmap str Blueprint) :=
  λ w, (Returned (blueprints w), w).

(** [self.blueprints[ k ] = v] *)
Definition self_blueprints_setitem (k : str) (v : Blueprint) : M unit :=
  λ w, (Returned (), {| blueprints := <[k := v]> (blueprints w); stdout := stdout w |}).

(** [print( line )] *)
Definition print (line : str) : M unit :=
  λ w, (Returned (), {| blueprints := blueprints w; stdout := stdout w ++ [line] |}).

(** [k in d] and [d[ k ]] for a dict [d]. *)
Definition contains {V} (k : str) (d : gmap str V) : bool :=
  bool_decide (is_Some (d !! k)).

Definition getitem {V} (d : gmap str V) (k : str) : M V :=
  match d !! k with
  | Some v => mret v
  | None => raise (KeyError k)
  end.

(** [d.keys()] *)
Definition keys {V} (d : gmap str V) : list str := (map_to_list d).*1.

(** ** pack_list *)

Definition pack_list (a_list : list str) : gmap str nat :=
  set_to_map (λ k, (k, count k a_list)) (list_to_set a_list : gset str).

(** ** Blueprints *)

Module Blueprints.

(** [add_blueprint] *)
Definition add_blueprint (blueprint : Blueprint) : M unit :=
  bps ← self_blueprints;
  _ ← (if contains (name blueprint) bps
       then print (lit "WARNING! '{}' seems to already be part of the DB!")
       else mret ());
  self_blueprints_setitem (name blueprint) blueprint.

(** The [for idx, material in enumerate( result )] loop of [find_materials].
    The list iterator re-reads the length of [result] before every step, so
    the entries appended by [extend] are visited too; [fuel] bounds the
    number of steps. *)
Fixpoint find_materials_loop (fuel : nat) (result : list str)
    (to_remove : list nat) (idx : nat) : M (list str * list nat) :=
  match fuel with
  | O => out_of_steps
  | S fuel' =>
      match result !! idx with
      | None => mret (result, to_remove)
      | Some material =>
          bps ← self_blueprints;
          if contains material bps then
            bps' ← self_blueprints;
            b ← getitem bps' material;
            find_materials_loop fuel' (result ++ materials_list b)
              (to_remove ++ [idx]) (S idx)
          else find_materials_loop fuel' result to_remove (S idx)
      end
  end.

(** [[ result[ i ] for i in range( len( result ) ) if i not in to_remove ]] *)
Definition keep_rest (result : list str) (to_remove : list nat) : list str :=
  omap (λ i, result !! i) (filter (λ i, i ∉ to_remove) (seq 0 (length result))).

(** [find_materials]. [materials_list] builds a new list at every call, so
    [result] shares nothing with a stored blueprint and [extend] changes the
    local list only. *)
Definition find_materials (fuel : nat) (item_name : str) : M (list str) :=
  bps ← self_blueprints;
  b ← getitem bps item_name;
  let result := materials_list b in
  let to_remove := [] in
  '(result, to_remove) ← find_materials_loop fuel result to_remove 0;
  mret (keep_rest result to_remove).

(** [{ k: f( k ) for k in ks }], filled key by key. *)
Fixpoint dict_of {V} (f : str → M V) (ks : list str)
    (d : gmap str V) : M (gmap str V) :=
  match ks with
  | [] => mret d
  | k :: ks' => v ← f k; dict_of f ks' (<[k := v]> d)
  end.

(** [find_keyword]; [lower] is [str.lower]. The order in which the keys are
    walked does not show in the dict that is returned. *)
Definition find_keyword (lower : str → str) (fuel : nat) (keyword : str)
    : M (gmap str (gmap str nat)) :=
  bps ← self_blueprints;
  let blueprint_matches :=
    filter (λ k, str_in (lower keyword) (lower k) = true) (keys bps) in
  dict_of (λ k, r ← find_materials fuel k; mret (pack_list r)) blueprint_matches ∅.

(** [size] *)
Definition size : M nat :=
  bps ← self_blueprints;
  mret (base.size bps).

End Blueprints.

(** ** The ingredient graph *)

(** [needs bps x y]: [x] is a blueprint of [bps] and at least one unit of [y]
    is on its list of materials. *)
Definition needs (bps : gmap str Blueprint) (x y : str) : Prop :=
  ∃ b, bps !! x = Some b ∧ y ∈ materials_list b.

(** No chain of ingredients leads from an item back to itself. *)
Definition acyclic (bps : gmap str Blueprint) : Prop :=
  ∀ x, ¬ tc (needs bps) x x.

(** The invariant of the data model: every quantity is at least 1. *)
Definition positive_quantities (bps : gmap str Blueprint) : Prop :=
  map_Forall (λ _ b, Forall (λ p, (1 ≤ p.2)%Z) (materials b)) bps.

(** [expansion bps queue leaves n]: replacing every craftable entry of
    [queue] by the materials of its blueprint, again and again, ends after
    [n] entries have been looked at and leaves the raw materials [leaves]. *)
Inductive expansion (bps : gmap str Blueprint)
    : list str → list str → nat → Prop :=
  | expansion_nil : expansion bps [] [] 0
  | expansion_raw m ms ls n :
      bps !! m = None →
      expansion bps ms ls n →
      expansion bps (m :: ms) (m :: ls) (S n)
  | expansion_craftable m b ms l1 n1 l2 n2 :
      bps !! m = Some b →
      expansion bps (materials_list b) l1 n1 →
      expansion bps ms l2 n2 →
      expansion bps (m :: ms) (l1 ++ l2) (S (n1 + n2)).

(** [resolves w x l]: with enough steps [find_materials( x )] returns [l]. *)
Definition resolves (w : World) (x : str) (l : list str) : Prop :=
  ∃ fuel, Blueprints.find_materials fuel x w = (Returned l, w).

(** ** The integer-weighted resolution of the specification

    Section 4.2 of the specification describes a second way to resolve an
    item: a recursion over the ingredient graph that passes the quantity
    needed so far down to the ingredients and adds it to a table of counts
    when it reaches a raw material. [depth] bounds the recursion. *)

Definition add_count (k : str) (n : Z) (acc : gmap str Z) : gmap str Z :=
  <[k := (default 0 (acc !! k) + n)%Z]> acc.

Fixpoint resolve_weighted (depth : nat) (bps : gmap str Blueprint)
    (item_name : str) (qty : Z) (acc : gmap str Z) : option (gmap str Z) :=
  match depth with
  | O => None
  | S depth' =>
      match bps !! item_name with
      | None => None
      | Some b =>
          foldl (λ oacc '(mat, q),
                   match oacc with
                   | None => None
                   | Some acc' =>
                       if contains mat bps
                       then resolve_weighted depth' bps mat (qty * q)%Z acc'
                       else Some (add_count mat (qty * q)%Z acc')
                   end)
                (Some acc) (materials b)
      end
  end.

Definition resolve_counts (depth : nat) (bps : gmap str Blueprint)
    (item_name : str) : option (gmap str Z) :=
  resolve_weighted depth bps item_name 1%Z ∅.

(** [tally qty leaves acc]: the table [acc] after [qty] has been added once
    for every entry of [leaves]. *)
Definition tally (qty : Z) (leaves : list str) (acc : gmap str Z)
    : gmap str Z :=
  foldl (λ acc' m, add_count m qty acc') acc leaves.

(** [keyword] occurs in [k] when letter case is ignored: the lower-case form
    of [keyword] is a contiguous run of the lower-case form of [k]. *)
Definition occurs_ignoring_case (lower : str → str) (keyword k : str) : Prop :=
  ∃ pre post, lower k = pre ++ lower keyword ++ post.

(** ** Collections used as examples *)

Definition recipe (n : string) (ms : list (string * Z)) : Blueprint :=
  {| name := lit n; type := []; materials := prod_map lit id <$> ms |}.

(** A collection filled the way the loader fills it: one [add_blueprint]
    after the other, from an empty dict. *)
Definition collection (bs : list Blueprint) : World :=
  foldl (λ w b, (Blueprints.add_blueprint b w).2)
        {| blueprints := ∅; stdout := [] |} bs.

(** [X] needs two [Y], [Y] needs three [Z], [Z] is raw. *)
Definition nested : World :=
  collection [recipe "X" [("Y", 2%Z)]; recipe "Y" [("Z", 3%Z)]].

(** [P] needs one [Q] and [Q] needs one [P]. *)
Definition looping : World :=
  collection [recipe "P" [("Q", 1%Z)]; recipe "Q" [("P", 1%Z)]].

(** One blueprint over two raw materials. *)
Definition flat : World :=
  collection [recipe "W" [("A", 2%Z); ("B", 3%Z)]].

(** A sword and what it is forged from. *)
Definition armoury : World :=
  collection [recipe "Iron Sword" [("Iron Bar", 2%Z); ("Leather", 1%Z)];
              recipe "Iron Bar" [("Iron Ore", 3%Z)];
              recipe "Tonic" [("Herb", 1%Z)]].

(** Ranks that witness that the example collections have no cycle. *)
Definition rank_of (table : list (string * nat)) (x : str) : nat :=
  default 0 ((list_to_map (prod_map lit id <$> table) : gmap str nat) !! x).

(** ** Reading a blueprint off a wiki page

    [create_blueprint] fetches a page and hands it to an HTML parser; what it
    does with the parsed page is modelled, from the text of the first heading
    and the texts of the cells of the first table. *)

(** [d[ k ] = v] on a dict kept in insertion order: a key that is there
    keeps its place. *)
Fixpoint dict_setitem {V} (k : str) (v : V) (d : list (str * V))
    : list (str * V) :=
  match d with
  | [] => [(k, v)]
  | (k', v') :: d' =>
      if decide (k' = k) then (k, v) :: d' else (k', v') :: dict_setitem k v d'
  end.

(** [s[ :-1 ]]: [s] without its last character. *)
Definition drop_last (s : str) : str := take (length s - 1) s.

(** [s.replace( old, new )] for a nonempty [old]: the occurrences are
    replaced from the left and do not overlap; [skip] counts the characters
    of an occurrence that are still to be passed over. *)
Fixpoint replace_from (old new : str) (skip : nat) (s : str) : str :=
  match s with
  | [] => []
  | c :: s' =>
      match skip with
      | S skip' => replace_from old new skip' s'
      | O =>
          if bool_decide (old `prefix_of` s)
          then new ++ replace_from old new (length old - 1) s'
          else c :: replace_from old new 0 s'
      end
  end.

Definition replace (old new s : str) : str := replace_from old new 0 s.

(** The regular expressions that [REGEX_INGREDIENT] needs: a sequence of
    literal characters and of capturing groups around the greedy repetition
    of a character class, [least] times or more. *)
Inductive piece :=
  | Char (c : N)
  | Group (cls : N → bool) (least : nat).

(** The number of leading characters of [s] that are in the class. *)
Fixpoint run_length (cls : N → bool) (s : str) : nat :=
  match s with
  | c :: s' => if cls c then S (run_length cls s') else 0
  | [] => 0
  end.

(** A greedy repetition first takes [k] characters, all it can, and gives
    them back one by one while the rest of the pattern does not match. *)
Fixpoint backtrack (least : nat) (rest : str → option (list str))
    (s : str) (k : nat) : option (list str) :=
  match (if decide (least ≤ k)
         then cons (take k s) <$> rest (drop k s) else None) with
  | Some groups => Some groups
  | None => match k with O => None | S k' => backtrack least rest s k' end
  end.

(** A match of the pattern at the start of [s]: its groups. *)
Fixpoint match_here (pat : list piece) (s : str) : option (list str) :=
  match pat with
  | [] => Some []
  | Char c :: pat' =>
      match s with
      | c' :: s' => if (c =? c')%N then match_here pat' s' else None
      | [] => None
      end
  | Group cls least :: pat' =>
      backtrack least (match_here pat') s (run_length cls s)
  end.

(** The first element of [re.findall( pat, s )], if there is one: the
    groups of the leftmost match. *)
Fixpoint findall_first (pat : list piece) (s : str) : option (list str) :=
  match match_here pat s with
  | Some groups => Some groups
  | None =>
      match s with
      | [] => None
      | _ :: s' => findall_first pat s'
      end
  end.

(** Every character of [s] is in the class. *)
Definition str_all (cls : N → bool) (s : str) : Prop :=
  run_length cls s = length s.

(** The parentheses and the tabulator. *)
Definition open_paren : N := 40.
Definition close_paren : N := 41.
Definition tab : N := 9.

(** The class of the decimal digits; [decimal] gives the value of a digit
    and nothing for any other character. *)
Definition isdigit (decimal : N → option N) (c : N) : bool :=
  bool_decide (is_Some (decimal c)).

(** [REGEX_INGREDIENT]: a group of any number of characters other than an
    opening parenthesis, an opening parenthesis, a group of one or more
    digits, a closing parenthesis. *)
Definition REGEX_INGREDIENT (decimal : N → option N) : list piece :=
  [Group (λ c, negb (c =? open_paren)%N) 0; Char open_paren;
   Group (isdigit decimal) 1; Char close_paren].

(** [int( s )] for a string of digits, all that the second group of
    [REGEX_INGREDIENT] can be. *)
Fixpoint int_from (decimal : N → option N) (acc : Z) (s : str) : Z :=
  match s with
  | [] => acc
  | c :: s' => int_from decimal (10 * acc + Z.of_N (default 0%N (decimal c)))%Z s'
  end.

Definition int (decimal : N → option N) (s : str) : Z := int_from decimal 0 s.

(** The [for ingredient in ingredients] loop of [create_blueprint], over the
    texts of the cells; [materials] is [result.materials]. *)
Fixpoint read_ingredients (lower : str → str) (decimal : N → option N)
    (ingredients : list str) (materials : list (str * Z)) : M (list (str * Z)) :=
  match ingredients with
  | [] => mret materials
  | text :: ingredients' =>
      if str_in (lit "crafts") (lower text) then mret materials
      else
        _ ← print (tab :: lit "- '" ++ text ++ lit "'");
        match findall_first (REGEX_INGREDIENT decimal) text with
        | Some current_ingredient =>
            read_ingredients lower decimal ingredients'
              (dict_setitem (drop_last (default [] (current_ingredient !! 0)))
                            (int decimal (default [] (current_ingredient !! 1)))
                            materials)
        | None => read_ingredients lower decimal ingredients' materials
        end
  end.

(** [create_blueprint], from [blueprint_info], the text of the first [h1] of
    the page, and [cells], the texts of the [td] cells of its first table. *)
Definition create_blueprint (lower : str → str) (decimal : N → option N)
    (blueprint_info : str) (cells : list str)
    (item_type : option str) : M Blueprint :=
  let name1 := replace (lit "Blueprint: ") [] blueprint_info in
  let name2 := replace (lit "Relic - ") [] name1 in
  let type' := match item_type with Some t => t | None => [] end in
  let ingredients := filter (λ text, text ≠ []) cells in
  materials' ← read_ingredients lower decimal ingredients [];
  mret {| name := name2; type := type'; materials := materials' |}.

(** ** Vocabulary of the further properties *)

(** One [add_blueprint] after the other, the way [read_all_blueprints] fills
    the collection. *)
Definition add_all (bs : list Blueprint) (w : World) : World :=
  foldl (λ w' b, (Blueprints.add_blueprint b w').2) w bs.

(** Every blueprint is stored under its own name. *)
Definition keyed_by_name (bps : gmap str Blueprint) : Prop :=
  map_Forall (λ k b, name b = k) bps.

(** The text of a cell of the table of ingredients as the wiki writes it:
    the name, one separating character, the quantity in parentheses. *)
Definition ingredient_cell (sep : N) (row : str * str) : str :=
  row.1 ++ sep :: open_paren :: row.2 ++ [close_paren].

(** * Proofs *)

(** ** The monad *)

Lemma bind_returned {A B} (m : M A) (f : A → M B) (w w' : World) (a : A) :
  m w = (Returned a, w') → (m ≫= f) w = f a w'.
Proof. intros H. unfold mbind, M_bind. by rewrite H. Qed.

Lemma contains_true {V} (k : str) (d : gmap str V) (v : V) :
  d !! k = Some v → contains k d = true.
Proof. intros H. apply bool_decide_eq_true. by exists v. Qed.

Lemma contains_false {V} (k : str) (d : gmap str V) :
  d !! k = None → contains k d = false.
Proof. intros H. apply bool_decide_eq_false. rewrite H. by intros [? ?]. Qed.

Lemma contains_lookup {V} (k : str) (d : gmap str V) :
  contains k d = true ↔ is_Some (d !! k).
Proof. unfold contains. by rewrite bool_decide_eq_true. Qed.

(** ** One step of the loop of [find_materials] *)

Lemma loop_end fuel result to_remove idx w :
  result !! idx = None →
  Blueprints.find_materials_loop (S fuel) result to_remove idx w
  = (Returned (result, to_remove), w).
Proof. intros H. simpl. by rewrite H. Qed.

Lemma loop_raw fuel result to_remove idx w m :
  result !! idx = Some m →
  blueprints w !! m = None →
  Blueprints.find_materials_loop (S fuel) result to_remove idx w
  = Blueprints.find_materials_loop fuel result to_remove (S idx) w.
Proof.
  intros Hm Hb. simpl. rewrite Hm.
  unfold mbind, M_bind, self_blueprints. by rewrite (contains_false _ _ Hb).
Qed.

Lemma loop_craftable fuel result to_remove idx w m b :
  result !! idx = Some m →
  blueprints w !! m = Some b →
  Blueprints.find_materials_loop (S fuel) result to_remove idx w
  = Blueprints.find_materials_loop fuel (result ++ materials_list b)
      (to_remove ++ [idx]) (S idx) w.
Proof.
  intros Hm Hb. simpl. rewrite Hm.
  unfold mbind, M_bind, self_blueprints. rewrite (contains_true _ _ _ Hb).
  unfold getitem. by rewrite Hb.
Qed.

(** Case analysis on what the loop finds at [idx]: a craftable entry, a raw
    one, or the end of the list. *)
Ltac loop_cases result idx w :=
  let m := fresh "m" in
  let b := fresh "b" in
  let Hm := fresh "Hm" in
  let Hb := fresh "Hb" in
  destruct (result !! idx) as [m|] eqn:Hm;
    [destruct (blueprints w !! m) as [b|] eqn:Hb;
       [rewrite ?(loop_craftable _ _ _ _ _ m b Hm Hb) in *
       |rewrite ?(loop_raw _ _ _ _ _ m Hm Hb) in *]
    |rewrite ?(loop_end _ _ _ _ _ Hm) in *].

(** The loop reads the collection and never writes it, whatever the number
    of steps it is given. *)
Lemma loop_frame fuel : ∀ result to_remove idx w,
  (Blueprints.find_materials_loop fuel result to_remove idx w).2 = w.
Proof.
  induction fuel as [|fuel IH]; intros result to_remove idx w; [done|].
  loop_cases result idx w; auto.
Qed.

(** The loop raises nothing: the only subscript is guarded by [in]. *)
Lemma loop_no_raise fuel : ∀ result to_remove idx w e,
  (Blueprints.find_materials_loop fuel result to_remove idx w).1 ≠ Raised e.
Proof.
  induction fuel as [|fuel IH]; intros result to_remove idx w e; [done|].
  loop_cases result idx w; auto.
Qed.

(** A larger budget does not change a result. *)
Lemma loop_more_fuel fuel : ∀ fuel' result to_remove idx w r,
  Blueprints.find_materials_loop fuel result to_remove idx w = (Returned r, w) →
  fuel ≤ fuel' →
  Blueprints.find_materials_loop fuel' result to_remove idx w = (Returned r, w).
Proof.
  induction fuel as [|fuel IH]; intros fuel' result to_remove idx w r H Hle; [done|].
  destruct fuel' as [|fuel']; [lia|].
  loop_cases result idx w; [apply IH; [done|lia]..|done].
Qed.

(** ** The final comprehension of [find_materials] *)

Lemma keep_rest_from (bps : gmap str Blueprint) (to_remove : list nat) :
  ∀ (l pre : list str),
  (∀ i m, l !! i = Some m → (length pre + i ∈ to_remove ↔ is_Some (bps !! m))) →
  omap (λ i, (pre ++ l) !! i)
       (filter (λ i, i ∉ to_remove) (seq (length pre) (length l)))
  = filter (λ m, bps !! m = None) l.
Proof.
  induction l as [|x l IH]; intros pre H; [done|].
  assert (Hrest : omap (λ i, (pre ++ x :: l) !! i)
            (filter (λ i, i ∉ to_remove) (seq (S (length pre)) (length l)))
          = filter (λ m, bps !! m = None) l).
  { specialize (IH (pre ++ [x])).
    rewrite length_app, <- (assoc_L (++)) in IH. simpl in IH.
    rewrite Nat.add_1_r in IH. apply IH.
    intros i m Hi. rewrite <- (H (S i) m) by done.
    by replace (length pre + S i) with (S (length pre + i)) by lia. }
  pose proof (H 0 x eq_refl) as H0. rewrite Nat.add_0_r in H0.
  cbn [length seq]. rewrite filter_cons, (filter_cons _ x).
  destruct (decide (length pre ∉ to_remove)) as [Hin|Hin].
  - cbn [omap list_omap]. rewrite list_lookup_middle by done.
    rewrite Hrest, decide_True; [done|].
    destruct (bps !! x) eqn:Hx; [|done]. exfalso. apply Hin, H0. eauto.
  - rewrite Hrest, decide_False; [done|].
    apply dec_stable in Hin. apply H0 in Hin as [b Hb]. by rewrite Hb.
Qed.

Lemma keep_rest_filter (bps : gmap str Blueprint) result to_remove :
  (∀ i m, result !! i = Some m → (i ∈ to_remove ↔ is_Some (bps !! m))) →
  Blueprints.keep_rest result to_remove = filter (λ m, bps !! m = None) result.
Proof. intros H. by apply (keep_rest_from bps to_remove result []). Qed.

Lemma keep_rest_nil result : Blueprints.keep_rest result [] = result.
Proof.
  rewrite (keep_rest_filter ∅).
  - induction result as [|x l IH]; [done|].
    rewrite filter_cons, decide_True by apply lookup_empty. by rewrite IH.
  - intros i m _. rewrite lookup_empty. split; [by intros ?%elem_of_nil|by intros [? ?]].
Qed.

(** ** Counting *)

Lemma count_nil k : count k [] = 0.
Proof. done. Qed.

Lemma count_cons k x l :
  count k (x :: l) = (if decide (x = k) then 1 else 0) + count k l.
Proof. unfold count. rewrite filter_cons. by destruct (decide (x = k)). Qed.

Lemma count_app k l1 l2 : count k (l1 ++ l2) = count k l1 + count k l2.
Proof. unfold count. by rewrite filter_app, length_app. Qed.

Lemma count_replicate k n x :
  count k (replicate n x) = if decide (x = k) then n else 0.
Proof.
  induction n as [|n IH]; simpl; [by destruct (decide (x = k))|].
  rewrite count_cons, IH. by destruct (decide (x = k)).
Qed.

Lemma count_perm k l1 l2 : l1 ≡ₚ l2 → count k l1 = count k l2.
Proof. intros H. unfold count. by rewrite H. Qed.

Lemma count_pos k l : 0 < count k l ↔ k ∈ l.
Proof.
  induction l as [|x l IH]; [rewrite count_nil, elem_of_nil; lia|].
  rewrite count_cons, elem_of_cons.
  destruct (decide (x = k)) as [->|Hne]; [split; [by left|lia]|].
  rewrite Nat.add_0_l, IH. split; [by right|by intros [?|?]].
Qed.

Lemma count_zero k l : count k l = 0 ↔ k ∉ l.
Proof. rewrite <- count_pos. lia. Qed.

(** ** pack_list *)

Lemma lookup_pack_list (l : list str) (k : str) :
  pack_list l !! k = if decide (k ∈ l) then Some (count k l) else None.
Proof.
  unfold pack_list. destruct (decide (k ∈ l)) as [Hin|Hin].
  - apply lookup_set_to_map; [naive_solver|].
    exists k. split; [by apply elem_of_list_to_set|done].
  - apply eq_None_not_Some. intros [n Hn].
    apply lookup_set_to_map in Hn as (x & Hx & Heq); [|naive_solver].
    apply elem_of_list_to_set in Hx. by simplify_eq.
Qed.

Lemma pack_list_perm (l1 l2 : list str) :
  l1 ≡ₚ l2 → pack_list l1 = pack_list l2.
Proof.
  intros H. apply map_eq. intros k. rewrite !lookup_pack_list.
  rewrite (count_perm k l1 l2 H).
  destruct (decide (k ∈ l1)) as [H1|H1], (decide (k ∈ l2)) as [H2|H2];
    try done; by rewrite H in H1.
Qed.

(** ** A work list of raw materials only *)

Lemma loop_all_raw fuel : ∀ result to_remove idx w,
  (∀ i m, idx ≤ i → result !! i = Some m → blueprints w !! m = None) →
  length result - idx < fuel →
  Blueprints.find_materials_loop fuel result to_remove idx w
  = (Returned (result, to_remove), w).
Proof.
  induction fuel as [|fuel IH]; intros result to_remove idx w Hraw Hlen; [lia|].
  destruct (result !! idx) as [m|] eqn:Hm.
  - rewrite (loop_raw _ _ _ _ _ m) by eauto.
    pose proof (lookup_lt_Some _ _ _ Hm).
    apply IH; [|lia]. intros i m' Hi. apply Hraw. lia.
  - by apply loop_end.
Qed.

Lemma elem_of_materials_list (b : Blueprint) (k : str) :
  k ∈ materials_list b ↔ ∃ q, (k, q) ∈ materials b ∧ (0 < q)%Z.
Proof.
  unfold materials_list. rewrite list_elem_of_join. split.
  - intros (l & Hk & Hl). apply list_elem_of_fmap in Hl as ([m q] & -> & Hmq).
    apply elem_of_replicate in Hk as [-> Hq]. exists q. split; [done|lia].
  - intros (q & Hkq & Hq). exists (replicate (Z.to_nat q) k). split.
    + apply elem_of_replicate. split; [done|lia].
    + apply list_elem_of_fmap. by exists (k, q).
Qed.

Lemma mjoin_cons {A} (l : list A) (ls : list (list A)) :
  mjoin (l :: ls) = l ++ mjoin ls.
Proof. done. Qed.

Lemma count_materials_list (b : Blueprint) (k : str) (q : Z) :
  dict_wf (materials b) → (k, q) ∈ materials b →
  count k (materials_list b) = Z.to_nat q.
Proof.
  unfold dict_wf, materials_list. generalize (materials b) as ms.
  induction ms as [|[m q'] ms IH]; intros Hwf Hin; [by apply elem_of_nil in Hin|].
  rewrite fmap_cons in Hwf. apply NoDup_cons in Hwf as [Hm Hwf].
  rewrite fmap_cons, mjoin_cons, count_app, count_replicate.
  apply elem_of_cons in Hin as [[= -> ->]|Hin].
  - rewrite decide_True by done.
    match goal with |- _ + count _ ?l = _ => assert (Hk : m ∉ l) end.
    { intros (l & Hk & Hl)%list_elem_of_join.
      apply list_elem_of_fmap in Hl as ([m' q''] & -> & Hmq).
      apply elem_of_replicate in Hk as [-> _].
      apply Hm, list_elem_of_fmap. eexists; split; [|exact Hmq]; done. }
    apply count_zero in Hk. by rewrite Hk, Nat.add_0_r.
  - assert (m ≠ k) as Hne.
    { intros ->. apply Hm, list_elem_of_fmap. eexists; split; [|exact Hin]; done. }
    rewrite decide_False by done. by rewrite IH.
Qed.

(** ** Finding the first lookup of [find_materials] *)

Lemma find_materials_unfold fuel x w b :
  blueprints w !! x = Some b →
  Blueprints.find_materials fuel x w
  = match Blueprints.find_materials_loop fuel (materials_list b) [] 0 w with
    | (Returned (result, to_remove), w') =>
        (Returned (Blueprints.keep_rest result to_remove), w')
    | (Raised e, w') => (Raised e, w')
    | (Unfinished, w') => (Unfinished, w')
    end.
Proof.
  intros Hb. unfold Blueprints.find_materials, mbind, M_bind, self_blueprints, getitem.
  rewrite Hb. unfold mret, M_ret.
  by destruct (Blueprints.find_materials_loop _ _ _ _ _) as [[[? ?]| |] ?].
Qed.

Lemma find_materials_absent fuel x w :
  blueprints w !! x = None →
  Blueprints.find_materials fuel x w = (Raised (KeyError x), w).
Proof.
  intros Hb. unfold Blueprints.find_materials, mbind, M_bind, self_blueprints, getitem.
  by rewrite Hb.
Qed.

Lemma find_materials_frame fuel x w : (Blueprints.find_materials fuel x w).2 = w.
Proof.
  destruct (blueprints w !! x) as [b|] eqn:Hb.
  - rewrite (find_materials_unfold _ _ _ b) by done.
    pose proof (loop_frame fuel (materials_list b) [] 0 w) as H.
    by destruct (Blueprints.find_materials_loop _ _ _ _ _) as [[[? ?]| |] ?].
  - by rewrite find_materials_absent.
Qed.

Lemma find_materials_more_fuel fuel fuel' x w l :
  Blueprints.find_materials fuel x w = (Returned l, w) →
  fuel ≤ fuel' →
  Blueprints.find_materials fuel' x w = (Returned l, w).
Proof.
  intros H Hle. destruct (blueprints w !! x) as [b|] eqn:Hb.
  - rewrite (find_materials_unfold _ _ _ b) in H by done.
    rewrite (find_materials_unfold _ _ _ b) by done.
    pose proof (loop_frame fuel (materials_list b) [] 0 w) as Hw.
    destruct (Blueprints.find_materials_loop fuel _ _ _ _)
      as [[[r t]| |] w'] eqn:Hloop; simplify_eq/=.
    by rewrite (loop_more_fuel _ fuel' _ _ _ _ _ Hloop Hle).
  - by rewrite find_materials_absent in H.
Qed.

Lemma resolves_unique w x l1 l2 : resolves w x l1 → resolves w x l2 → l1 = l2.
Proof.
  intros [f1 H1] [f2 H2].
  apply (find_materials_more_fuel _ (f1 `max` f2)) in H1; [|lia].
  apply (find_materials_more_fuel _ (f1 `max` f2)) in H2; [|lia].
  congruence.
Qed.

(** ** Expansions *)

Lemma expansion_app bps q1 l1 n1 q2 l2 n2 :
  expansion bps q1 l1 n1 → expansion bps q2 l2 n2 →
  expansion bps (q1 ++ q2) (l1 ++ l2) (n1 + n2).
Proof.
  intros H1 H2. induction H1 as [|m ms ls n Hm _ IH|m b ms la na lb nb Hm Ha _ _ IH]; [done| |].
  - simpl. by constructor.
  - rewrite <- (assoc_L (++)). simpl. rewrite <- Nat.add_assoc.
    by apply expansion_craftable with b.
Qed.

Lemma expansion_app_inv bps q1 : ∀ q2 l n,
  expansion bps (q1 ++ q2) l n →
  ∃ l1 n1 l2 n2, expansion bps q1 l1 n1 ∧ expansion bps q2 l2 n2 ∧
                 l = l1 ++ l2 ∧ n = n1 + n2.
Proof.
  induction q1 as [|m q1 IH]; intros q2 l n H.
  - exists [], 0, l, n. split; [constructor|done].
  - simpl in H. inversion H as [|? ? ls n' Hm H'|? b ? la na lb nb Hm Ha H']; subst.
    + apply IH in H' as (l1 & n1 & l2 & n2 & H1 & H2 & -> & ->).
      exists (m :: l1), (S n1), l2, n2. split; [by constructor|done].
    + apply IH in H' as (l1 & n1 & l2 & n2 & H1 & H2 & -> & ->).
      exists (la ++ l1), (S (na + n1)), l2, n2.
      split; [by apply expansion_craftable with b|].
      split; [done|]. split; [by rewrite (assoc_L (++))|lia].
Qed.

Lemma expansion_unique bps q l n :
  expansion bps q l n → ∀ l' n', expansion bps q l' n' → l = l' ∧ n = n'.
Proof.
  induction 1 as [|m ms ls n Hm _ IH|m b ms la na lb nb Hm _ IHa _ IHb];
    intros l' n' H'; inversion H'; simplify_eq; try done.
  - by edestruct IH as [-> ->].
  - edestruct IHa as [-> ->]; [done|]. by edestruct IHb as [-> ->].
Qed.

(** The leaves of an expansion are raw materials. *)
Lemma expansion_leaves_raw bps q l n :
  expansion bps q l n → Forall (λ m, bps !! m = None) l.
Proof.
  induction 1; [done|by constructor|by apply Forall_app].
Qed.

(** The loop follows the expansion of the part of the work list that it has
    not looked at yet, and [to_remove] collects the positions of the
    craftable entries. *)
Lemma loop_expansion w n : ∀ queue leaves,
  expansion (blueprints w) queue leaves n →
  ∀ fuel pre to_remove, n < fuel →
  ∃ ext removed,
    Blueprints.find_materials_loop fuel (pre ++ queue) to_remove (length pre) w
    = (Returned (pre ++ queue ++ ext, to_remove ++ removed), w) ∧
    (∀ i, i ∈ removed ↔
          length pre ≤ i ∧
          ∃ m, (pre ++ queue ++ ext) !! i = Some m ∧ is_Some (blueprints w !! m)) ∧
    filter (λ m, blueprints w !! m = None) (queue ++ ext) ≡ₚ leaves.
Proof.
  induction n as [|n IH]; intros queue leaves Hexp fuel pre to_remove Hfuel;
    (destruct fuel as [|fuel]; [lia|]);
    inversion Hexp as [|m ms ls n' Hm Hms|m b ms la na lb nb Hm Ha Hb]; subst.
  - exists [], []. rewrite !(right_id_L [] (++)). split; [|split; [|done]].
    + apply loop_end, lookup_ge_None. lia.
    + intros i. split; [by intros ?%elem_of_nil|].
      intros (Hi & m & Hl & _). apply lookup_lt_Some in Hl. lia.
  - destruct (IH ms ls Hms fuel (pre ++ [m]) to_remove ltac:(lia))
      as (ext & removed & Hloop & Hrem & Hperm).
    rewrite length_app, Nat.add_1_r, <- !(assoc_L (++)) in Hloop. simpl in Hloop.
    rewrite <- !(assoc_L (++)) in Hrem. simpl in Hrem.
    exists ext, removed. split; [|split].
    + by rewrite (loop_raw _ _ _ _ _ m) by (by try apply list_lookup_middle).
    + intros i. rewrite Hrem, length_app, Nat.add_1_r. simpl.
      split; [intros [? ?]; split; [lia|done]|].
      intros (Hi & m' & Hl & Hsome). split; [|by eauto].
      destruct (decide (i = length pre)) as [->|]; [|lia].
      rewrite list_lookup_middle in Hl by done. simplify_eq.
      rewrite Hm in Hsome. by destruct Hsome.
    + simpl. rewrite filter_cons, decide_True by done. by rewrite Hperm.
  - assert (Hq : expansion (blueprints w) (ms ++ materials_list b) (lb ++ la) (na + nb)).
    { rewrite (Nat.add_comm na nb). by apply expansion_app. }
    destruct (IH _ _ Hq fuel (pre ++ [m]) (to_remove ++ [length pre]) ltac:(lia))
      as (ext & removed & Hloop & Hrem & Hperm).
    rewrite length_app, Nat.add_1_r, <- !(assoc_L (++)) in Hloop. simpl in Hloop.
    rewrite <- !(assoc_L (++)) in Hrem. simpl in Hrem.
    exists (materials_list b ++ ext), (length pre :: removed). split; [|split].
    + rewrite (loop_craftable _ _ _ _ _ m b) by (by try apply list_lookup_middle).
      by rewrite <- !(assoc_L (++)).
    + intros i. rewrite elem_of_cons, Hrem, length_app, Nat.add_1_r. simpl.
      split.
      * intros [->|[? ?]]; [|split; [lia|done]].
        split; [done|]. exists m. rewrite list_lookup_middle by done. eauto.
      * intros (Hi & Hsome).
        destruct (decide (i = length pre)) as [->|]; [by left|right].
        split; [lia|done].
    + simpl. rewrite filter_cons, decide_False by (by rewrite Hm).
      rewrite (assoc_L (++)), Hperm. apply Permutation_app_comm.
Qed.

Lemma find_materials_expansion w x b leaves n fuel :
  blueprints w !! x = Some b →
  expansion (blueprints w) (materials_list b) leaves n →
  n < fuel →
  ∃ l, Blueprints.find_materials fuel x w = (Returned l, w) ∧ l ≡ₚ leaves.
Proof.
  intros Hb Hexp Hfuel.
  destruct (loop_expansion w n _ _ Hexp fuel [] [] Hfuel)
    as (ext & removed & Hloop & Hrem & Hperm).
  simpl in *. rewrite (find_materials_unfold _ _ _ b), Hloop by done.
  eexists. split; [done|].
  rewrite (keep_rest_filter (blueprints w)); [done|].
  intros i m Hi. rewrite Hrem. split; [by intros (_ & ? & ? & ?); simplify_eq|].
  intros Hsome. split; [lia|eauto].
Qed.

(** ** Acyclic collections have expansions *)

Lemma tc_needs_last bps x y :
  tc (needs bps) x y → ∃ z, needs bps z y.
Proof. induction 1; eauto. Qed.

Lemma needs_finite bps x : pred_finite (tc (needs bps) x).
Proof.
  exists (mjoin (materials_list <$> (map_to_list bps).*2)).
  intros y [z (b & Hz & Hy)]%tc_needs_last.
  apply list_elem_of_join. exists (materials_list b). split; [done|].
  apply list_elem_of_fmap_2, list_elem_of_fmap. exists (z, b).
  split; [done|]. by apply elem_of_map_to_list.
Qed.

Lemma acyclic_sn bps x : acyclic bps → sn (needs bps) x.
Proof. intros Hacyc. apply tc_finite_sn; [exact Hacyc|apply needs_finite]. Qed.

Lemma expansion_of_list bps : ∀ q,
  (∀ y b, y ∈ q → bps !! y = Some b → ∃ l n, expansion bps (materials_list b) l n) →
  ∃ l n, expansion bps q l n.
Proof.
  induction q as [|m q IH]; intros H; [exists [], 0; constructor|].
  destruct IH as (l2 & n2 & H2).
  { intros y b Hy. apply H. by right. }
  destruct (bps !! m) as [b|] eqn:Hm.
  - destruct (H m b) as (l1 & n1 & H1); [by left|done|].
    exists (l1 ++ l2), (S (n1 + n2)). by apply expansion_craftable with b.
  - exists (m :: l2), (S n2). by constructor.
Qed.

Lemma sn_expansion bps x :
  sn (needs bps) x →
  ∀ b, bps !! x = Some b → ∃ l n, expansion bps (materials_list b) l n.
Proof.
  induction 1 as [x _ IH]. intros b Hb. apply expansion_of_list.
  intros y b' Hy Hb'. apply (IH y); [|done]. by exists b.
Qed.

Lemma acyclic_expansion bps x b :
  acyclic bps → bps !! x = Some b →
  ∃ l n, expansion bps (materials_list b) l n.
Proof. intros Hacyc. by apply sn_expansion, acyclic_sn. Qed.

(** An acyclic collection is one whose items can be ranked so that every
    ingredient ranks below the item that needs it. *)
Lemma ranked_acyclic bps (rank : str → nat) :
  map_Forall (λ x b, Forall (λ y, rank y < rank x) (materials_list b)) bps →
  acyclic bps.
Proof.
  intros Hrank.
  assert (Hlt : ∀ x y, tc (needs bps) x y → rank y < rank x).
  { induction 1 as [x y (b & Hb & Hy)|x y z (b & Hb & Hy) _ IH].
    - apply Hrank in Hb. by eapply Forall_forall in Hb.
    - apply Hrank in Hb. eapply Forall_forall in Hb; [|done]. lia. }
  intros x Hx. apply Hlt in Hx. lia.
Qed.

(** ** Tables of counts *)

Lemma lookup_add_count m n acc k :
  add_count m n acc !! k
  = if decide (m = k) then Some (default 0 (acc !! k) + n)%Z else acc !! k.
Proof.
  unfold add_count. destruct (decide (m = k)) as [->|Hne].
  - by rewrite lookup_insert_eq.
  - by rewrite lookup_insert_ne.
Qed.

Lemma lookup_tally qty : ∀ l acc k,
  tally qty l acc !! k
  = if decide (k ∈ l)
    then Some (default 0 (acc !! k) + qty * Z.of_nat (count k l))%Z
    else acc !! k.
Proof.
  induction l as [|m l IH]; intros acc k.
  - by rewrite decide_False by apply not_elem_of_nil.
  - unfold tally in *. simpl. rewrite IH, count_cons, !lookup_add_count.
    destruct (decide (m = k)) as [->|Hne], (decide (k ∈ l)) as [Hl|Hl]; simpl.
    + rewrite decide_True by left. f_equal. lia.
    + rewrite decide_True by left. apply count_zero in Hl. rewrite Hl. f_equal. lia.
    + rewrite decide_True by (by right). done.
    + rewrite decide_False; [done|]. by intros [?|?]%elem_of_cons.
Qed.

Lemma count_join_replicate k n l :
  count k (mjoin (replicate n l)) = n * count k l.
Proof.
  induction n as [|n IH]; [done|].
  simpl replicate. rewrite mjoin_cons, count_app, IH. lia.
Qed.

Lemma tally_scale qty q l acc :
  (1 ≤ q)%Z →
  tally (qty * q) l acc = tally qty (mjoin (replicate (Z.to_nat q) l)) acc.
Proof.
  intros Hq. apply map_eq. intros k. rewrite !lookup_tally, count_join_replicate.
  assert (Hin : k ∈ mjoin (replicate (Z.to_nat q) l) ↔ k ∈ l).
  { rewrite <- !count_pos, count_join_replicate. nia. }
  destruct (decide (k ∈ l)) as [Hl|Hl].
  - rewrite decide_True by (by apply Hin). f_equal. nia.
  - rewrite decide_False; [done|]. by rewrite Hin.
Qed.

Lemma pack_list_tally (l : list str) :
  Z.of_nat <$> pack_list l = tally 1 l ∅.
Proof.
  apply map_eq. intros k.
  rewrite lookup_fmap, lookup_pack_list, lookup_tally, lookup_empty.
  destruct (decide (k ∈ l)); simpl; [f_equal; lia|done].
Qed.

Lemma tally_perm qty l1 l2 acc : l1 ≡ₚ l2 → tally qty l1 acc = tally qty l2 acc.
Proof.
  intros H. apply map_eq. intros k. rewrite !lookup_tally, (count_perm k l1 l2 H).
  destruct (decide (k ∈ l1)) as [H1|H1], (decide (k ∈ l2)) as [H2|H2];
    try done; by rewrite H in H1.
Qed.

Lemma tally_app qty l1 l2 acc :
  tally qty (l1 ++ l2) acc = tally qty l2 (tally qty l1 acc).
Proof. unfold tally. by rewrite foldl_app. Qed.

(** ** Expansions of a repeated entry *)

Lemma expansion_replicate bps m lm nm k :
  expansion bps [m] lm nm →
  expansion bps (replicate k m) (mjoin (replicate k lm)) (k * nm).
Proof.
  intros H. induction k as [|k IH]; [constructor|].
  simpl replicate. rewrite mjoin_cons.
  change (m :: replicate k m) with ([m] ++ replicate k m).
  change (S k * nm) with (nm + k * nm). by apply expansion_app.
Qed.

Lemma expansion_replicate_inv bps m k l n :
  0 < k →
  expansion bps (replicate k m) l n →
  ∃ lm nm, expansion bps [m] lm nm ∧ l = mjoin (replicate k lm) ∧ n = k * nm.
Proof.
  intros Hk H. destruct k as [|k]; [lia|].
  pose proof H as H'. change (replicate (S k) m) with ([m] ++ replicate k m) in H'.
  apply expansion_app_inv in H' as (lm & nm & _ & _ & Hm & _ & _ & _).
  exists lm, nm. split; [done|].
  by apply (expansion_unique _ _ _ _ H), expansion_replicate.
Qed.

(** ** The weighted resolution computes the table of the leaves *)

Lemma resolve_weighted_expansion bps :
  positive_quantities bps →
  ∀ depth x b leaves n qty acc,
    bps !! x = Some b →
    expansion bps (materials_list b) leaves n →
    n < depth →
    resolve_weighted depth bps x qty acc = Some (tally qty leaves acc).
Proof.
  intros Hpos. induction depth as [|depth IH];
    intros x b leaves n qty acc Hb Hexp Hn; [lia|].
  simpl. rewrite Hb.
  assert (Hq : Forall (λ p, (1 ≤ p.2)%Z) (materials b)) by by apply Hpos in Hb.
  assert (Hle : n ≤ depth) by lia. clear Hn Hb.
  unfold materials_list in Hexp.
  revert leaves n acc Hq Hexp Hle. generalize (materials b) as ms.
  induction ms as [|[m q] ms IHms]; intros leaves n acc Hq Hexp Hle.
  - by inversion Hexp.
  - apply Forall_cons in Hq as [Hq1 Hq]. simpl in Hq1.
    rewrite fmap_cons, mjoin_cons in Hexp.
    apply expansion_app_inv in Hexp as (l1 & n1 & l2 & n2 & H1 & H2 & -> & ->).
    apply expansion_replicate_inv in H1 as (lm & nm & Hm & -> & ->); [|lia].
    rewrite tally_app, <- tally_scale by done.
    simpl foldl. destruct (bps !! m) as [b'|] eqn:Hbm.
    + rewrite (contains_true _ _ _ Hbm).
      inversion Hm as [| |? ? ? la na lb nb ? Ha Hnil]; simplify_eq.
      inversion Hnil; subst. rewrite (right_id_L [] (++)).
      rewrite (IH m b' la na) by (try done; nia).
      apply (IHms _ n2); [done..|lia].
    + rewrite (contains_false _ _ Hbm).
      inversion Hm as [|? ? ? ? ? Hnil|]; simplify_eq.
      inversion Hnil; subst. apply (IHms _ n2); [done..|lia].
Qed.

(** ** A loop that returns has followed an expansion *)

Lemma loop_returned_expansion w fuel : ∀ result to_remove idx r,
  Blueprints.find_materials_loop fuel result to_remove idx w = (Returned r, w) →
  idx ≤ length result →
  ∃ leaves n, expansion (blueprints w) (drop idx result) leaves n ∧ n < fuel.
Proof.
  induction fuel as [|fuel IH]; intros result to_remove idx r Hloop Hidx; [done|].
  destruct (result !! idx) as [m|] eqn:Hm.
  - pose proof (lookup_lt_Some _ _ _ Hm) as Hlt.
    rewrite (drop_S _ _ _ Hm).
    destruct (blueprints w !! m) as [b|] eqn:Hb.
    + rewrite (loop_craftable _ _ _ _ _ m b) in Hloop by done.
      apply IH in Hloop as (leaves & n & Hexp & Hn); [|rewrite length_app; lia].
      rewrite drop_app_le in Hexp by lia.
      apply expansion_app_inv in Hexp as (l2 & n2 & l1 & n1 & H2 & H1 & -> & ->).
      exists (l1 ++ l2), (S (n1 + n2)).
      split; [by apply expansion_craftable with b|lia].
    + rewrite (loop_raw _ _ _ _ _ m) in Hloop by done.
      apply IH in Hloop as (leaves & n & Hexp & Hn); [|lia].
      exists (m :: leaves), (S n). split; [by constructor|lia].
  - apply lookup_ge_None in Hm. rewrite drop_ge by done.
    exists [], 0. split; [constructor|lia].
Qed.

Lemma resolves_expansion w x b l :
  blueprints w !! x = Some b →
  resolves w x l →
  ∃ leaves n, expansion (blueprints w) (materials_list b) leaves n ∧ l ≡ₚ leaves.
Proof.
  intros Hb [fuel H]. pose proof H as H'.
  rewrite (find_materials_unfold _ _ _ b) in H' by done.
  pose proof (loop_frame fuel (materials_list b) [] 0 w) as Hw.
  destruct (Blueprints.find_materials_loop fuel _ _ _ _)
    as [[[r t]| |] w'] eqn:Hloop; simplify_eq/=.
  apply loop_returned_expansion in Hloop as (leaves & n & Hexp & Hn); [|lia].
  rewrite drop_0 in Hexp. exists leaves, n. split; [done|].
  destruct (find_materials_expansion w x b leaves n fuel Hb Hexp Hn)
    as (l' & Hl' & Hperm).
  congruence.
Qed.

Lemma expansion_resolves w x b leaves n :
  blueprints w !! x = Some b →
  expansion (blueprints w) (materials_list b) leaves n →
  ∃ l, resolves w x l ∧ l ≡ₚ leaves.
Proof.
  intros Hb Hexp.
  destruct (find_materials_expansion w x b leaves n (S n) Hb Hexp ltac:(lia))
    as (l & Hl & Hperm).
  exists l. split; [by exists (S n)|done].
Qed.

Lemma resolves_present w x l : resolves w x l → is_Some (blueprints w !! x).
Proof.
  intros [fuel H]. destruct (blueprints w !! x) eqn:Hb; [done|].
  by rewrite find_materials_absent in H.
Qed.

(** What is returned holds raw materials only. *)
Lemma resolves_raw w x l :
  resolves w x l → Forall (λ m, blueprints w !! m = None) l.
Proof.
  intros H. destruct (resolves_present _ _ _ H) as [b Hb].
  destruct (resolves_expansion _ _ b _ Hb H) as (leaves & n & Hexp & Hperm).
  rewrite Hperm. by eapply expansion_leaves_raw.
Qed.

(** ** An item on a cycle *)

Lemma cycle_step bps c :
  tc (needs bps) c c → ∃ c', needs bps c c' ∧ tc (needs bps) c' c'.
Proof.
  intros H. inversion H as [? ? Hn|? y ? Hn Hy]; subst.
  - by exists c.
  - exists y. split; [done|]. by eapply tc_r.
Qed.

(** As long as an entry that lies on a cycle is still ahead of the scan, the
    loop cannot reach the end of its list: looking at that entry appends
    another one. *)
Lemma loop_cycle_unfinished w fuel : ∀ result to_remove idx,
  (∃ j c, idx ≤ j ∧ result !! j = Some c ∧ tc (needs (blueprints w)) c c) →
  Blueprints.find_materials_loop fuel result to_remove idx w = (Unfinished, w).
Proof.
  induction fuel as [|fuel IH]; intros result to_remove idx (j & c & Hj & Hc & Hcyc);
    [done|].
  destruct (lookup_lt_is_Some_2 result idx) as [m Hm].
  { apply lookup_lt_Some in Hc. lia. }
  destruct (cycle_step _ _ Hcyc) as (c' & (bc & Hbc & Hc') & Hcyc').
  destruct (blueprints w !! m) as [b|] eqn:Hb.
  - rewrite (loop_craftable _ _ _ _ _ m b) by done. apply IH.
    destruct (decide (j = idx)) as [->|Hne].
    + assert (m = c) as -> by congruence. assert (bc = b) as -> by congruence.
      apply list_elem_of_lookup in Hc' as [i Hi].
      exists (length result + i), c'. split; [apply lookup_lt_Some in Hc; lia|].
      split; [|done]. by rewrite lookup_app_r, Nat.add_comm, Nat.add_sub by lia.
    + exists j, c. split; [lia|]. split; [|done]. by apply lookup_app_l_Some.
  - rewrite (loop_raw _ _ _ _ _ m) by done. apply IH.
    exists j, c. split; [|done].
    destruct (decide (j = idx)) as [->|Hne]; [congruence|lia].
Qed.

Lemma cycle_unfinished w x fuel :
  tc (needs (blueprints w)) x x →
  Blueprints.find_materials fuel x w = (Unfinished, w).
Proof.
  intros Hcyc.
  destruct (cycle_step _ _ Hcyc) as (c' & (b & Hb & Hc') & Hcyc').
  rewrite (find_materials_unfold _ _ _ b) by done.
  apply list_elem_of_lookup in Hc' as [i Hi].
  rewrite loop_cycle_unfinished; [done|].
  exists i, c'. split; [lia|done].
Qed.

(** ** The dict comprehension of [find_keyword] *)

Lemma dict_of_frame {V} (f : str → M V) :
  (∀ k w, (f k w).2 = w) → ∀ ks d w, (Blueprints.dict_of f ks d w).2 = w.
Proof.
  intros Hf. induction ks as [|k ks IH]; intros d w; [done|].
  simpl. unfold mbind, M_bind. specialize (Hf k w).
  destruct (f k w) as [[v| |] w']; simpl in Hf; subst; [apply IH|done..].
Qed.

Lemma dict_of_returned {V} (f : str → M V) (g : str → V) w :
  ∀ ks d,
  (∀ k, k ∈ ks → f k w = (Returned (g k), w)) →
  Blueprints.dict_of f ks d w
  = (Returned (foldl (λ d' k, <[k := g k]> d') d ks), w).
Proof.
  induction ks as [|k ks IH]; intros d Hf; [done|].
  simpl. rewrite (bind_returned _ _ w w (g k)) by (apply Hf; by left).
  apply IH. intros k' Hk'. apply Hf. by right.
Qed.

Lemma dict_of_unfinished {V} (f : str → M V) w :
  ∀ ks d,
  (∀ k, k ∈ ks → (f k w).2 = w ∧ ∀ e, (f k w).1 ≠ Raised e) →
  (∃ k, k ∈ ks ∧ (f k w).1 = Unfinished) →
  Blueprints.dict_of f ks d w = (Unfinished, w).
Proof.
  induction ks as [|k ks IH]; intros d Hf (k' & Hk' & Hun); [by apply elem_of_nil in Hk'|].
  simpl. unfold mbind, M_bind.
  destruct (Hf k ltac:(by left)) as [Hw Hraise].
  destruct (f k w) as [[v| |] w'] eqn:Hfk; simpl in *; subst.
  - apply IH; [intros k'' Hk''; apply Hf; by right|].
    apply elem_of_cons in Hk' as [->|Hk']; [by rewrite Hfk in Hun|eauto].
  - by destruct (Hraise e).
  - done.
Qed.

Lemma lookup_foldl_insert {V} (g : str → V) (ks : list str) :
  ∀ (d : gmap str V) k,
  foldl (λ d' k', <[k' := g k']> d') d ks !! k
  = if decide (k ∈ ks) then Some (g k) else d !! k.
Proof.
  induction ks as [|k' ks IH]; intros d k.
  - by rewrite decide_False by apply not_elem_of_nil.
  - simpl. rewrite IH. destruct (decide (k ∈ ks)) as [Hin|Hin].
    + by rewrite decide_True by (by right).
    + destruct (decide (k' = k)) as [->|Hne].
      * rewrite decide_True by left. apply lookup_insert_eq.
      * rewrite decide_False by (by intros [?|?]%elem_of_cons).
        by apply lookup_insert_ne.
Qed.

(** ** Strings *)

Lemma str_in_spec (s t : str) :
  str_in s t = true ↔ ∃ pre post, t = pre ++ s ++ post.
Proof.
  induction t as [|c t IH]; simpl;
    rewrite orb_true_iff, bool_decide_eq_true.
  - split.
    + intros [[post H]|?]; [|done]. by exists [], post.
    + intros (pre & post & H). left. exists post.
      destruct pre; [done|by simplify_eq/=].
  - rewrite IH. split.
    + intros [[post H]|(pre & post & H)].
      * by exists [], post.
      * exists (c :: pre), post. by rewrite H.
    + intros (pre & post & H). destruct pre as [|c' pre]; simpl in H.
      * left. by exists post.
      * right. exists pre, post. by injection H.
Qed.

(** [s in t] after lowering both. *)
Lemma str_in_lower (lower : str → str) (s t : str) :
  str_in (lower s) (lower t) = true ↔ occurs_ignoring_case lower s t.
Proof. apply str_in_spec. Qed.

(** For a [lower] that works character by character, as on ASCII text: some
    run of [k] and the keyword have the same lower-case form. *)
Lemma occurs_ignoring_case_run (f : N → N) (keyword k : str) :
  occurs_ignoring_case (fmap f) keyword k ↔
  ∃ pre run post, k = pre ++ run ++ post ∧ f <$> run = f <$> keyword.
Proof.
  split.
  - intros (a & c & H).
    apply fmap_app_inv in H as (pre & rest & -> & H & ->).
    symmetry in H. apply fmap_app_inv in H as (run & post & H & -> & ->).
    by exists pre, run, post.
  - intros (pre & run & post & -> & H).
    exists (f <$> pre), (f <$> post). by rewrite !fmap_app, H.
Qed.

Lemma str_in_empty (t : str) : str_in [] t = true.
Proof. apply str_in_spec. by exists [], t. Qed.

(** ** find_keyword *)

Lemma elem_of_keys {V} (d : gmap str V) (k : str) :
  k ∈ keys d ↔ is_Some (d !! k).
Proof.
  unfold keys. rewrite list_elem_of_fmap. split.
  - intros ([k' v] & -> & H). apply elem_of_map_to_list in H. by exists v.
  - intros [v H]. exists (k, v). split; [done|]. by apply elem_of_map_to_list.
Qed.

Lemma find_keyword_unfold (lower : str → str) fuel keyword w :
  Blueprints.find_keyword lower fuel keyword w
  = Blueprints.dict_of
      (λ k, r ← Blueprints.find_materials fuel k; mret (pack_list r))
      (filter (λ k, str_in (lower keyword) (lower k) = true) (keys (blueprints w)))
      ∅ w.
Proof. done. Qed.

Lemma find_keyword_frame (lower : str → str) fuel keyword w :
  (Blueprints.find_keyword lower fuel keyword w).2 = w.
Proof.
  rewrite find_keyword_unfold. apply dict_of_frame. intros k w'.
  unfold mbind, M_bind. pose proof (find_materials_frame fuel k w') as H.
  by destruct (Blueprints.find_materials fuel k w') as [[?| |] ?].
Qed.

Lemma find_materials_no_raise fuel x w e :
  is_Some (blueprints w !! x) →
  (Blueprints.find_materials fuel x w).1 ≠ Raised e.
Proof.
  intros [b Hb]. rewrite (find_materials_unfold _ _ _ b) by done.
  pose proof (loop_no_raise fuel (materials_list b) [] 0 w e) as H.
  destruct (Blueprints.find_materials_loop _ _ _ _ _) as [[[? ?]| |] ?];
    simpl in *; congruence.
Qed.

(** One budget that serves every name of a list. *)
Lemma resolves_common_fuel w : ∀ ks : list str,
  (∀ k, k ∈ ks → ∃ l, resolves w k l) →
  ∃ fuel (g : str → list str),
    ∀ k, k ∈ ks → Blueprints.find_materials fuel k w = (Returned (g k), w).
Proof.
  induction ks as [|k ks IH]; intros H.
  - exists 0, (λ _, []). by intros k ?%elem_of_nil.
  - destruct IH as (f1 & g & Hg); [intros k' Hk'; apply H; by right|].
    destruct (H k ltac:(by left)) as (l & f2 & Hl).
    exists (f1 `max` f2), (λ k', if decide (k' = k) then l else g k').
    intros k' Hk'. destruct (decide (k' = k)) as [->|Hne].
    + apply (find_materials_more_fuel f2); [done|lia].
    + apply elem_of_cons in Hk' as [?|Hk']; [done|].
      apply (find_materials_more_fuel f1); [by apply Hg|lia].
Qed.

(** When every matched name resolves, the search returns the table of the
    matched names. *)
Lemma find_keyword_returns (lower : str → str) w keyword :
  (∀ k, is_Some (blueprints w !! k) → str_in (lower keyword) (lower k) = true →
        ∃ l, resolves w k l) →
  ∃ fuel r,
    Blueprints.find_keyword lower fuel keyword w = (Returned r, w) ∧
    ∀ k counts,
      r !! k = Some counts ↔
      is_Some (blueprints w !! k) ∧ str_in (lower keyword) (lower k) = true ∧
      ∃ l, resolves w k l ∧ counts = pack_list l.
Proof.
  intros Hres.
  set (ks := filter (λ k, str_in (lower keyword) (lower k) = true) (keys (blueprints w))).
  assert (Hks : ∀ k, k ∈ ks ↔
            is_Some (blueprints w !! k) ∧ str_in (lower keyword) (lower k) = true).
  { intros k. unfold ks. rewrite list_elem_of_filter, elem_of_keys. tauto. }
  destruct (resolves_common_fuel w ks) as (fuel & g & Hg).
  { intros k [? ?]%Hks. by apply Hres. }
  exists fuel. eexists. split.
  - rewrite find_keyword_unfold. fold ks.
    apply (dict_of_returned _ (λ k, pack_list (g k))).
    intros k Hk. by rewrite (bind_returned _ _ w w (g k)) by by apply Hg.
  - intros k counts. rewrite lookup_foldl_insert, lookup_empty.
    destruct (decide (k ∈ ks)) as [Hk|Hk].
    + pose proof Hk as [? ?]%Hks. split.
      * intros [= <-]. do 2 (split; [done|]). exists (g k).
        split; [|done]. exists fuel. by apply Hg.
      * intros (_ & _ & l & Hl & ->). do 2 f_equal.
        apply (resolves_unique w k); [|done]. exists fuel. by apply Hg.
    + split; [done|]. intros (? & ? & _). destruct Hk. by apply Hks.
Qed.

Lemma find_keyword_unfinished (lower : str → str) w keyword k fuel :
  is_Some (blueprints w !! k) →
  str_in (lower keyword) (lower k) = true →
  tc (needs (blueprints w)) k k →
  Blueprints.find_keyword lower fuel keyword w = (Unfinished, w).
Proof.
  intros Hk Hin Hcyc. rewrite find_keyword_unfold. apply dict_of_unfinished.
  - intros k' [_ Hk']%list_elem_of_filter. apply elem_of_keys in Hk'.
    unfold mbind, M_bind.
    pose proof (find_materials_frame fuel k' w) as Hw.
    pose proof (find_materials_no_raise fuel k' w) as Hr.
    destruct (Blueprints.find_materials fuel k' w) as [[a|e'|] w']; simpl in *.
    + by split.
    + by destruct (Hr e' Hk').
    + by split.
  - exists k. split; [by apply list_elem_of_filter, conj, elem_of_keys|].
    unfold mbind, M_bind. by rewrite cycle_unfinished.
Qed.

(** ** Sums over the materials of a blueprint *)

Lemma count_join_per_unit (t : str) (per_unit : str → list str) ms :
  count t (mjoin (per_unit <$>
            mjoin ((λ '(mat, qty), replicate (Z.to_nat qty) mat) <$> ms)))
  = sum_list ((λ '(y, q), Z.to_nat q * count t (per_unit y)) <$> ms).
Proof.
  induction ms as [|[y q] ms IH]; [done|].
  rewrite !fmap_cons, mjoin_cons, fmap_app, join_app, count_app, IH.
  by rewrite fmap_replicate, count_join_replicate.
Qed.

Lemma expansion_per_unit w (per_unit : str → list str) q leaves n :
  expansion (blueprints w) q leaves n →
  (∀ y, y ∈ q → if contains y (blueprints w)
                then resolves w y (per_unit y) else per_unit y = [y]) →
  leaves ≡ₚ mjoin (per_unit <$> q).
Proof.
  induction 1 as [|m ms ls n Hm _ IH|m b ms la na lb nb Hm Ha _ _ IH]; intros Hq;
    [done| |].
  - pose proof (Hq m ltac:(by left)) as Hu.
    rewrite (contains_false _ _ Hm) in Hu.
    rewrite fmap_cons, mjoin_cons, Hu. simpl. f_equiv.
    apply IH. intros y Hy. apply Hq. by right.
  - pose proof (Hq m ltac:(by left)) as Hu.
    rewrite (contains_true _ _ _ Hm) in Hu.
    destruct (expansion_resolves w m b la na Hm Ha) as (l' & Hl' & Hperm).
    rewrite fmap_cons, mjoin_cons, (resolves_unique _ _ _ _ Hu Hl'), Hperm.
    f_equiv. apply IH. intros y Hy. apply Hq. by right.
Qed.

Lemma acyclic_resolves w x :
  acyclic (blueprints w) → is_Some (blueprints w !! x) → ∃ l, resolves w x l.
Proof.
  intros Hacyc [b Hb].
  destruct (acyclic_expansion _ _ _ Hacyc Hb) as (leaves & n & Hexp).
  destruct (expansion_resolves _ _ _ _ _ Hb Hexp) as (l & Hl & _). eauto.
Qed.

Lemma sn_resolves w x :
  sn (needs (blueprints w)) x → is_Some (blueprints w !! x) → ∃ l, resolves w x l.
Proof.
  intros Hsn [b Hb].
  destruct (sn_expansion _ _ Hsn _ Hb) as (leaves & n & Hexp).
  destruct (expansion_resolves _ _ _ _ _ Hb Hexp) as (l & Hl & _). eauto.
Qed.

(** ** Two levels *)

Lemma expansion_all_raw bps (q : list str) :
  Forall (λ m, bps !! m = None) q → expansion bps q q (length q).
Proof. induction 1; simpl; by constructor. Qed.

Lemma join_replicate_replicate {A} (n k : nat) (x : A) :
  mjoin (replicate n (replicate k x)) = replicate (n * k) x.
Proof.
  induction n as [|n IH]; [done|].
  simpl replicate. by rewrite mjoin_cons, IH, <- replicate_add.
Qed.

Lemma materials_list_single (b : Blueprint) (y : str) (a : Z) :
  materials b = [(y, a)] → materials_list b = replicate (Z.to_nat a) y.
Proof. intros H. unfold materials_list. rewrite H. simpl. apply (right_id_L [] (++)). Qed.

Lemma two_levels_resolve w x y z bx by' a b :
  blueprints w !! x = Some bx → materials bx = [(y, a)] →
  blueprints w !! y = Some by' → materials by' = [(z, b)] →
  blueprints w !! z = None →
  resolves w x (replicate (Z.to_nat a * Z.to_nat b) z).
Proof.
  intros Hx Hbx Hy Hby Hz.
  assert (Hexp : expansion (blueprints w) [y]
            (replicate (Z.to_nat b) z) (S (Z.to_nat b + 0))).
  { rewrite <- (right_id_L [] (++) (replicate (Z.to_nat b) z)).
    apply expansion_craftable with by'; [done| |constructor].
    rewrite (materials_list_single _ _ _ Hby).
    rewrite <- (length_replicate (Z.to_nat b) z) at 3.
    apply expansion_all_raw, Forall_replicate, Hz. }
  apply (expansion_replicate _ _ _ _ (Z.to_nat a)) in Hexp.
  rewrite join_replicate_replicate, <- (materials_list_single _ _ _ Hbx) in Hexp.
  destruct (expansion_resolves _ _ _ _ _ Hx Hexp) as (l & Hl & Hperm).
  symmetry in Hperm. apply replicate_Permutation in Hperm. by subst.
Qed.

(** ** The example collections *)

Lemma ranked_acyclic_table bps (table : list (string * nat)) :
  bool_decide (map_Forall
    (λ x b, Forall (λ y, rank_of table y < rank_of table x) (materials_list b)) bps)
  = true →
  acyclic bps.
Proof.
  intros H. apply bool_decide_eq_true in H.
  exact (ranked_acyclic _ (rank_of table) H).
Qed.

Lemma nested_acyclic : acyclic (blueprints nested).
Proof. by apply (ranked_acyclic_table _ [("X", 2); ("Y", 1)]). Qed.

Lemma armoury_acyclic : acyclic (blueprints armoury).
Proof. by apply (ranked_acyclic_table _ [("Iron Sword", 2); ("Iron Bar", 1); ("Tonic", 1)]). Qed.

Lemma positive_quantities_table bps :
  bool_decide (map_Forall (λ _ b, Forall (λ p, (1 ≤ p.2)%Z) (materials b)) bps) = true →
  positive_quantities bps.
Proof. intros H. by apply bool_decide_eq_true in H. Qed.

Lemma armoury_positive : positive_quantities (blueprints armoury).
Proof. by apply positive_quantities_table. Qed.

Lemma looping_cycle : tc (needs (blueprints looping)) (lit "P") (lit "P").
Proof.
  apply tc_l with (lit "Q"); [|apply tc_once].
  - exists (recipe "P" [("Q", 1%Z)]). split; [done|]. apply list_elem_of_here.
  - exists (recipe "Q" [("P", 1%Z)]). split; [done|]. apply list_elem_of_here.
Qed.

(** ** Runs on the example collections *)

Example run_nested :
  Blueprints.find_materials 9 (lit "X") nested
  = (Returned [lit "Z"; lit "Z"; lit "Z"; lit "Z"; lit "Z"; lit "Z"], nested).
Proof. reflexivity. Qed.

Example run_nested_short_budget :
  Blueprints.find_materials 8 (lit "X") nested = (Unfinished, nested).
Proof. reflexivity. Qed.

Example run_sword :
  Blueprints.find_materials 10 (lit "Iron Sword") armoury
  = (Returned ((lit "Leather") :: replicate 6 (lit "Iron Ore")), armoury).
Proof. reflexivity. Qed.

Example run_sword_weighted :
  resolve_counts 2 (blueprints armoury) (lit "Iron Sword")
  = Some (<[lit "Leather" := 1%Z]> {[lit "Iron Ore" := 6%Z]}).
Proof. reflexivity. Qed.

Example run_keyword :
  (Blueprints.find_keyword lower_ascii 10 (lit "IRON") armoury).1
  = Returned (<[lit "Iron Sword" := <[lit "Leather" := 1]> {[lit "Iron Ore" := 6]}]>
                {[lit "Iron Bar" := {[lit "Iron Ore" := 3]}]}).
Proof. reflexivity. Qed.

Example run_looping :
  Blueprints.find_materials 500 (lit "P") looping = (Unfinished, looping).
Proof. reflexivity. Qed.

Example run_lower : lower_ascii (lit "Iron Sword [Mk II]") = lit "iron sword [mk ii]".
Proof. reflexivity. Qed.

(** A name that starts with a capital E with an acute accent (201) is found
    by the keyword of the small letter (233). *)
Example run_keyword_accent :
  (Blueprints.find_keyword lower_latin1 3 [233%N]
     (collection [{| name := 201%N :: lit "toile"; type := [];
                     materials := [(lit "Ore", 2%Z)] |}])).1
  = Returned {[201%N :: lit "toile" := {[lit "Ore" := 2]}]}.
Proof. reflexivity. Qed.

(** A cell with a no-break space (160) before the parenthesis, and a cell
    whose quantity is the Arabic-Indic digit three (1635). *)
Example run_create_blueprint :
  (create_blueprint lower_latin1 decimal_arabic_indic (lit "Blueprint: Lens")
     [lit "Scrap" ++ 160%N :: lit "(2)"; lit "Ore (" ++ 1635%N :: lit ")"]
     None nested).1
  = Returned {| name := lit "Lens"; type := [];
                materials := [(lit "Scrap", 2%Z); (lit "Ore", 3%Z)] |}.
Proof. reflexivity. Qed.

(** * The claims *)

(** ** C1 *)

(** C1, as amended. [find_materials] has no guard against cycles. When the
    item lies on a cycle of ingredients, every link of which has a quantity of
    at least 1, the call raises nothing and never returns: whatever the number
    of steps, the scan has not reached the end of the list it appends to, and
    the collection is as it was. *)
Theorem find_materials_on_cycle_unfinished (w : World) (x : str) :
  tc (needs (blueprints w)) x x →
  ∀ fuel, Blueprints.find_materials fuel x w = (Unfinished, w).
Proof. intros Hcyc fuel. by apply cycle_unfinished. Qed.

Lemma find_materials_on_cycle_unfinished_witness :
  tc (needs (blueprints looping)) (lit "P") (lit "P") ∧
  ∀ fuel, Blueprints.find_materials fuel (lit "P") looping = (Unfinished, looping).
Proof.
  split; [exact looping_cycle|].
  exact (find_materials_on_cycle_unfinished looping (lit "P") looping_cycle).
Defined.

(** C1 as stated fails: with [P] needing [Q] and [Q] needing [P], resolving
    [P] raises no exception and returns no list, whatever the number of
    steps. *)
Lemma looping_raises_nothing :
  ¬ (∃ fuel e, (Blueprints.find_materials fuel (lit "P") looping).1 = Raised e) ∧
  ¬ (∃ fuel l, (Blueprints.find_materials fuel (lit "P") looping).1 = Returned l).
Proof.
  split; intros (fuel & r & H);
    by rewrite (cycle_unfinished looping (lit "P") fuel looping_cycle) in H.
Qed.

(** ** C2 *)

(** C2. On an acyclic collection whose quantities are all at least 1, and
    for an item of the collection, [find_materials] returns a list and the
    weighted recursion returns a table, and [pack_list] of the list is that
    table. *)
Theorem pack_list_find_materials_weighted (w : World) (x : str) :
  acyclic (blueprints w) →
  positive_quantities (blueprints w) →
  is_Some (blueprints w !! x) →
  ∃ l counts n,
    (∀ fuel, n < fuel → Blueprints.find_materials fuel x w = (Returned l, w)) ∧
    (∀ depth, n < depth → resolve_counts depth (blueprints w) x = Some counts) ∧
    Z.of_nat <$> pack_list l = counts.
Proof.
  intros Hacyc Hpos [b Hb].
  destruct (acyclic_expansion _ _ _ Hacyc Hb) as (leaves & n & Hexp).
  destruct (find_materials_expansion w x b leaves n (S n) Hb Hexp ltac:(lia))
    as (l & Hl & Hperm).
  exists l, (tally 1 leaves ∅), n. split; [|split].
  - intros fuel Hfuel. apply (find_materials_more_fuel (S n)); [done|lia].
  - intros depth Hdepth. by apply (resolve_weighted_expansion _ Hpos _ _ b _ n).
  - by rewrite pack_list_tally, (tally_perm _ _ _ _ Hperm).
Qed.

Lemma pack_list_find_materials_weighted_witness :
  ∃ l counts n,
    (∀ fuel, n < fuel →
       Blueprints.find_materials fuel (lit "Iron Sword") armoury = (Returned l, armoury)) ∧
    (∀ depth, n < depth →
       resolve_counts depth (blueprints armoury) (lit "Iron Sword") = Some counts) ∧
    Z.of_nat <$> pack_list l = counts.
Proof.
  apply (pack_list_find_materials_weighted armoury (lit "Iron Sword")).
  - exact armoury_acyclic.
  - exact armoury_positive.
  - eexists. reflexivity.
Defined.

(** ** C3 *)

(** C3. In a collection where an item needs [a] units of an ingredient
    whose own blueprint needs [b] units of a raw material, resolving the item
    returns that raw material [a * b] times and the ingredient not at all:
    six [Z] and no [Y] for two [Y] of three [Z] each. In general, on an
    acyclic collection the list returned for an item holds raw materials
    only, and the number of times a material occurs in it is the sum, over
    the ingredients of the item, of the quantity of the ingredient times the
    number of times the material occurs in what one unit of the ingredient
    resolves to (the ingredient itself when it is raw). *)
Theorem nested_expansion_multiplies :
  (∀ (w : World) (x y z : str) (bx by' : Blueprint) (a b : Z),
     blueprints w !! x = Some bx → materials bx = [(y, a)] →
     blueprints w !! y = Some by' → materials by' = [(z, b)] →
     blueprints w !! z = None →
     ∃ l, resolves w x l ∧
          l = replicate (Z.to_nat a * Z.to_nat b) z ∧
          count z l = Z.to_nat a * Z.to_nat b ∧
          count y l = 0) ∧
  ∀ (w : World) (x : str) (b : Blueprint),
    blueprints w !! x = Some b →
    acyclic (blueprints w) →
    ∃ (l : list str) (per_unit : str → list str),
      resolves w x l ∧
      Forall (λ m, blueprints w !! m = None) l ∧
      (∀ y, y ∈ materials_list b →
            if contains y (blueprints w)
            then resolves w y (per_unit y) else per_unit y = [y]) ∧
      ∀ t, count t l
           = sum_list ((λ '(y, q), Z.to_nat q * count t (per_unit y)) <$> materials b).
Proof.
  split.
  - intros w x y z bx by' a b Hx Hbx Hy Hby Hz. eexists.
    split; [by eapply two_levels_resolve|]. split; [done|].
    rewrite !count_replicate, decide_True by done.
    split; [done|]. rewrite decide_False; [done|]. intros ->. congruence.
  - intros w x b Hb Hacyc.
    destruct (acyclic_resolves w x Hacyc) as [l Hl]; [done|].
    destruct (resolves_common_fuel w
                (filter (λ y, is_Some (blueprints w !! y)) (materials_list b)))
      as (fuel & g & Hg).
    { intros k [Hk _]%list_elem_of_filter. by apply acyclic_resolves. }
    set (per_unit := λ y, if contains y (blueprints w) then g y else [y]).
    assert (Hunit : ∀ y, y ∈ materials_list b →
              if contains y (blueprints w)
              then resolves w y (per_unit y) else per_unit y = [y]).
    { intros y Hy. unfold per_unit.
      destruct (contains y (blueprints w)) eqn:Hc; [|done].
      exists fuel. apply Hg, list_elem_of_filter. by apply contains_lookup in Hc. }
    exists l, per_unit. split; [done|]. split; [by eapply resolves_raw|].
    split; [done|]. intros t.
    destruct (resolves_expansion _ _ _ _ Hb Hl) as (leaves & n & Hexp & Hperm).
    rewrite (count_perm _ _ _ Hperm).
    rewrite (count_perm _ _ _ (expansion_per_unit w per_unit _ _ _ Hexp Hunit)).
    apply count_join_per_unit.
Qed.

Lemma nested_expansion_multiplies_witness :
  (∃ l, resolves nested (lit "X") l ∧
        l = replicate (Z.to_nat 2 * Z.to_nat 3) (lit "Z") ∧
        count (lit "Z") l = Z.to_nat 2 * Z.to_nat 3 ∧
        count (lit "Y") l = 0) ∧
  ∃ (l : list str) (per_unit : str → list str),
    resolves nested (lit "X") l ∧
    Forall (λ m, blueprints nested !! m = None) l ∧
    (∀ y, y ∈ materials_list (recipe "X" [("Y", 2%Z)]) →
          if contains y (blueprints nested)
          then resolves nested y (per_unit y) else per_unit y = [y]) ∧
    ∀ t, count t l
         = sum_list ((λ '(y, q), Z.to_nat q * count t (per_unit y))
                       <$> materials (recipe "X" [("Y", 2%Z)])).
Proof.
  split.
  - apply (proj1 nested_expansion_multiplies nested (lit "X") (lit "Y") (lit "Z")
             (recipe "X" [("Y", 2%Z)]) (recipe "Y" [("Z", 3%Z)]) 2%Z 3%Z);
      reflexivity.
  - apply (proj2 nested_expansion_multiplies nested (lit "X")).
    + reflexivity.
    + exact nested_acyclic.
Defined.

(** ** C4 *)

(** C4. Resolving a name that is not a key of the collection raises the
    [KeyError] of the failed subscript, which carries the name (the error the
    specification calls UnknownItemError), and leaves the collection as it
    was; resolving a name that is a key raises nothing. *)
Theorem find_materials_unknown_item (w : World) (x : str) :
  (blueprints w !! x = None →
   ∀ fuel, Blueprints.find_materials fuel x w = (Raised (KeyError x), w)) ∧
  (is_Some (blueprints w !! x) →
   ∀ fuel e, (Blueprints.find_materials fuel x w).1 ≠ Raised e).
Proof.
  split.
  - intros Hx fuel. by apply find_materials_absent.
  - intros Hx fuel e. by apply find_materials_no_raise.
Qed.

Lemma find_materials_unknown_item_witness :
  (∀ fuel, Blueprints.find_materials fuel (lit "Gold") nested
           = (Raised (KeyError (lit "Gold")), nested)) ∧
  (∀ fuel e, (Blueprints.find_materials fuel (lit "X") nested).1 ≠ Raised e).
Proof.
  split.
  - apply (proj1 (find_materials_unknown_item nested (lit "Gold"))). reflexivity.
  - apply (proj2 (find_materials_unknown_item nested (lit "X"))). eexists. reflexivity.
Defined.

(** ** C5 *)

(** C5. Adding a blueprint whose name is already a key returns normally,
    prints the warning, leaves [size()] as it was and makes the new blueprint
    the one stored under that name. *)
Theorem add_blueprint_existing_name (w : World) (blueprint old : Blueprint) :
  blueprints w !! name blueprint = Some old →
  ∃ w' n,
    Blueprints.add_blueprint blueprint w = (Returned (), w') ∧
    Blueprints.size w = (Returned n, w) ∧
    Blueprints.size w' = (Returned n, w') ∧
    blueprints w' !! name blueprint = Some blueprint ∧
    stdout w' = stdout w ++ [lit "WARNING! '{}' seems to already be part of the DB!"].
Proof.
  intros Hold. eexists. exists (size (blueprints w)).
  split; [|split; [done|split; [|split]]].
  - unfold Blueprints.add_blueprint, mbind, M_bind, self_blueprints.
    rewrite (contains_true _ _ _ Hold). reflexivity.
  - unfold Blueprints.size, mbind, M_bind, self_blueprints, mret, M_ret. simpl.
    by rewrite map_size_insert_Some by eauto.
  - simpl. apply lookup_insert_eq.
  - done.
Qed.

Lemma add_blueprint_existing_name_witness :
  ∃ w' n,
    Blueprints.add_blueprint (recipe "Y" [("Z", 4%Z)]) nested = (Returned (), w') ∧
    Blueprints.size nested = (Returned n, nested) ∧
    Blueprints.size w' = (Returned n, w') ∧
    blueprints w' !! lit "Y" = Some (recipe "Y" [("Z", 4%Z)]) ∧
    stdout w' = stdout nested ++ [lit "WARNING! '{}' seems to already be part of the DB!"].
Proof.
  apply (add_blueprint_existing_name nested (recipe "Y" [("Z", 4%Z)])
           (recipe "Y" [("Z", 3%Z)])).
  reflexivity.
Defined.

(** ** C6 *)

(** C6. When every name in the materials of a blueprint is raw,
    [find_materials] returns the blueprint's [materials_list] as it is, and
    every ingredient occurs in it as many times as its quantity says. *)
Theorem find_materials_raw_ingredients (w : World) (x : str) (b : Blueprint) :
  blueprints w !! x = Some b →
  dict_wf (materials b) →
  (∀ m, m ∈ (materials b).*1 → blueprints w !! m = None) →
  (∀ fuel, length (materials_list b) < fuel →
     Blueprints.find_materials fuel x w = (Returned (materials_list b), w)) ∧
  ∀ k q, (k, q) ∈ materials b →
    count k (materials_list b) = Z.to_nat q ∧
    ((0 ≤ q)%Z → Z.of_nat (count k (materials_list b)) = q).
Proof.
  intros Hb Hwf Hraw. split.
  - intros fuel Hfuel. rewrite (find_materials_unfold _ _ _ b) by done.
    rewrite loop_all_raw, ?keep_rest_nil; [done| |lia].
    intros i m _ Hm. apply Hraw.
    apply list_elem_of_lookup_2, elem_of_materials_list in Hm as (q & Hq & _).
    apply list_elem_of_fmap. by exists (m, q).
  - intros k q Hkq. rewrite (count_materials_list b k q) by done. split; [done|lia].
Qed.

Lemma find_materials_raw_ingredients_witness :
  (∀ fuel, length (materials_list (recipe "W" [("A", 2%Z); ("B", 3%Z)])) < fuel →
     Blueprints.find_materials fuel (lit "W") flat = (Returned [lit "A"; lit "A"; lit "B"; lit "B"; lit "B"], flat)) ∧
  ∀ k q, (k, q) ∈ materials (recipe "W" [("A", 2%Z); ("B", 3%Z)]) →
    count k (materials_list (recipe "W" [("A", 2%Z); ("B", 3%Z)])) = Z.to_nat q ∧
    ((0 ≤ q)%Z →
     Z.of_nat (count k (materials_list (recipe "W" [("A", 2%Z); ("B", 3%Z)]))) = q).
Proof.
  apply (find_materials_raw_ingredients flat (lit "W") (recipe "W" [("A", 2%Z); ("B", 3%Z)])).
  - reflexivity.
  - unfold dict_wf. simpl. apply (bool_decide_unpack _). exact I.
  - intros m Hm. simpl in Hm.
    apply elem_of_cons in Hm as [->|Hm]; [reflexivity|].
    apply elem_of_cons in Hm as [->|Hm]; [reflexivity|].
    by apply elem_of_nil in Hm.
Defined.

(** ** C7 *)

(** C7. [pack_list] gives the same table for a list and for any permutation
    of it, and the table maps exactly the elements of the list, each to the
    number of its occurrences. *)
Theorem pack_list_permutation (l1 l2 : list str) :
  l1 ≡ₚ l2 →
  pack_list l1 = pack_list l2 ∧
  ∀ k n, pack_list l1 !! k = Some n ↔ k ∈ l1 ∧ n = count k l1.
Proof.
  intros Hperm. split; [by apply pack_list_perm|].
  intros k n. rewrite lookup_pack_list.
  destruct (decide (k ∈ l1)) as [Hin|Hin].
  - split; [by intros [= <-]|by intros [_ ->]].
  - split; [done|by intros [? _]].
Qed.

Lemma pack_list_permutation_witness :
  pack_list [lit "ore"; lit "herb"; lit "ore"] = pack_list [lit "herb"; lit "ore"; lit "ore"] ∧
  ∀ k n, pack_list [lit "ore"; lit "herb"; lit "ore"] !! k = Some n ↔
         k ∈ [lit "ore"; lit "herb"; lit "ore"] ∧ n = count k [lit "ore"; lit "herb"; lit "ore"].
Proof.
  apply (pack_list_permutation [lit "ore"; lit "herb"; lit "ore"] [lit "herb"; lit "ore"; lit "ore"]).
  apply Permutation_swap.
Defined.

(** ** C8 *)

(** C8, as amended. [lower] is [str.lower], whatever it does to a string.
    Two keywords with the same lower-case form give the same outcome on
    every collection. When no chain of ingredients that starts at a matched
    name goes on for ever (as in every acyclic collection), [find_keyword]
    returns a table whose keys are exactly the stored names whose lower-case
    form contains the lower-case form of the keyword, each with [pack_list]
    of what [find_materials] returns for it. *)
Theorem find_keyword_ignores_case (lower : str → str) (w : World) (keyword : str) :
  (∀ fuel keyword', lower keyword' = lower keyword →
     Blueprints.find_keyword lower fuel keyword' w
     = Blueprints.find_keyword lower fuel keyword w) ∧
  ((∀ k, is_Some (blueprints w !! k) → occurs_ignoring_case lower keyword k →
         sn (needs (blueprints w)) k) →
   ∃ fuel r,
     Blueprints.find_keyword lower fuel keyword w = (Returned r, w) ∧
     ∀ k counts,
       r !! k = Some counts ↔
       is_Some (blueprints w !! k) ∧ occurs_ignoring_case lower keyword k ∧
       ∃ l, resolves w k l ∧ counts = pack_list l).
Proof.
  split.
  - intros fuel keyword' Heq. by rewrite !find_keyword_unfold, Heq.
  - intros Hsn. destruct (find_keyword_returns lower w keyword) as (fuel & r & Hr & Hlook).
    { intros k Hk Hin. apply sn_resolves; [|done].
      apply Hsn; [done|]. by apply str_in_lower. }
    exists fuel, r. split; [done|]. intros k counts.
    rewrite Hlook. by rewrite str_in_lower.
Qed.

Lemma find_keyword_ignores_case_witness :
  (∀ fuel, Blueprints.find_keyword lower_ascii fuel (lit "IRON") armoury
           = Blueprints.find_keyword lower_ascii fuel (lit "iron") armoury) ∧
  ∃ fuel r,
    Blueprints.find_keyword lower_ascii fuel (lit "iron") armoury = (Returned r, armoury) ∧
    ∀ k counts,
      r !! k = Some counts ↔
      is_Some (blueprints armoury !! k) ∧
      occurs_ignoring_case lower_ascii (lit "iron") k ∧
      ∃ l, resolves armoury k l ∧ counts = pack_list l.
Proof.
  split.
  - intros fuel.
    apply (proj1 (find_keyword_ignores_case lower_ascii armoury (lit "iron"))).
    reflexivity.
  - apply (proj2 (find_keyword_ignores_case lower_ascii armoury (lit "iron"))).
    intros k _ _. apply acyclic_sn. exact armoury_acyclic.
Defined.

(** C8 as stated fails on a collection with a cycle: with [P] needing [Q]
    and [Q] needing [P], the search for "p" matches [P] and returns no
    table, whatever the number of steps. *)
Lemma looping_keyword_returns_nothing :
  is_Some (blueprints looping !! lit "P") ∧
  occurs_ignoring_case lower_ascii (lit "p") (lit "P") ∧
  ¬ ∃ fuel r, (Blueprints.find_keyword lower_ascii fuel (lit "p") looping).1 = Returned r.
Proof.
  split; [by eexists|]. split; [by exists [], []|].
  intros (fuel & r & H).
  rewrite (find_keyword_unfinished lower_ascii looping (lit "p") (lit "P") fuel) in H;
    [done|by eexists|done|exact looping_cycle].
Qed.

(** ** C9 *)

(** C9. [find_keyword], [find_materials] and [size] leave the collection and
    the output as they were, whatever they return and however many steps
    they are given; [add_blueprint] stores its argument under its name. *)
Theorem queries_leave_collection_unchanged (w : World) :
  (∀ lower fuel keyword, (Blueprints.find_keyword lower fuel keyword w).2 = w) ∧
  (∀ fuel item_name, (Blueprints.find_materials fuel item_name w).2 = w) ∧
  (Blueprints.size w).2 = w ∧
  (∀ blueprint,
     blueprints (Blueprints.add_blueprint blueprint w).2
     = <[name blueprint := blueprint]> (blueprints w)).
Proof.
  split; [|split; [|split]].
  - intros lower fuel keyword. apply find_keyword_frame.
  - intros fuel item_name. apply find_materials_frame.
  - done.
  - intros blueprint.
    unfold Blueprints.add_blueprint, mbind, M_bind, self_blueprints.
    by destruct (contains (name blueprint) (blueprints w)).
Qed.

(** ** C10 *)

(** C10, as amended. [str.lower] leaves the empty string empty, and so the
    empty keyword matches every stored name, on every collection. On an
    acyclic collection [find_keyword] with the empty keyword returns a table
    with exactly one entry for every stored blueprint name. *)
Theorem find_keyword_empty_keyword (lower : str → str) (w : World) :
  lower [] = [] →
  filter (λ k, str_in (lower []) (lower k) = true) (keys (blueprints w))
  = keys (blueprints w) ∧
  (acyclic (blueprints w) →
   ∃ fuel r,
     Blueprints.find_keyword lower fuel [] w = (Returned r, w) ∧
     dom r = dom (blueprints w) ∧
     size r = size (blueprints w)).
Proof.
  intros Hnil. split.
  - rewrite Hnil. induction (keys (blueprints w)) as [|k ks IH]; [done|].
    by rewrite filter_cons, decide_True, IH by apply str_in_empty.
  - intros Hacyc.
    destruct (find_keyword_returns lower w []) as (fuel & r & Hr & Hlook).
    { intros k Hk _. by apply acyclic_resolves. }
    assert (Hdom : dom r = dom (blueprints w)).
    { apply set_eq. intros k. rewrite !elem_of_dom. split.
      - intros [counts Hc]. by apply Hlook in Hc as (? & _).
      - intros Hk. destruct (acyclic_resolves w k Hacyc Hk) as [l Hl].
        exists (pack_list l). apply Hlook. split; [done|].
        split; [rewrite Hnil; apply str_in_empty|eauto]. }
    exists fuel, r. split; [done|]. split; [done|].
    by rewrite <- !size_dom, Hdom.
Qed.

Lemma find_keyword_empty_keyword_witness :
  filter (λ k, str_in (lower_ascii []) (lower_ascii k) = true) (keys (blueprints looping))
  = keys (blueprints looping) ∧
  ∃ fuel r,
    Blueprints.find_keyword lower_ascii fuel [] armoury = (Returned r, armoury) ∧
    dom r = dom (blueprints armoury) ∧
    size r = size (blueprints armoury).
Proof.
  split.
  - apply (find_keyword_empty_keyword lower_ascii looping). reflexivity.
  - apply (find_keyword_empty_keyword lower_ascii armoury); [reflexivity|].
    exact armoury_acyclic.
Defined.

(** C10 as stated fails on a collection with a cycle: with [P] needing [Q]
    and [Q] needing [P], the search for the empty keyword returns no table,
    whatever the number of steps. *)
Lemma looping_empty_keyword_returns_nothing :
  ¬ ∃ fuel r, (Blueprints.find_keyword lower_ascii fuel [] looping).1 = Returned r.
Proof.
  intros (fuel & r & H).
  rewrite (find_keyword_unfinished lower_ascii looping [] (lit "P") fuel) in H;
    [done|by eexists|done|exact looping_cycle].
Qed.

(** * Further properties of the code *)

(** ** add_blueprint and size *)

Lemma add_blueprint_run (blueprint : Blueprint) (w : World) :
  Blueprints.add_blueprint blueprint w
  = (Returned (),
     {| blueprints := <[name blueprint := blueprint]> (blueprints w);
        stdout := if contains (name blueprint) (blueprints w)
                  then stdout w ++ [lit "WARNING! '{}' seems to already be part of the DB!"]
                  else stdout w |}).
Proof.
  unfold Blueprints.add_blueprint, mbind, M_bind, self_blueprints.
  by destruct (contains (name blueprint) (blueprints w)).
Qed.

(** X1. Adding a blueprint under a name that is not yet a key returns
    normally, prints nothing, makes [size()] one larger and stores the
    blueprint under its name. *)
Theorem add_blueprint_new_name (w : World) (blueprint : Blueprint) :
  blueprints w !! name blueprint = None →
  ∃ w' n,
    Blueprints.add_blueprint blueprint w = (Returned (), w') ∧
    Blueprints.size w = (Returned n, w) ∧
    Blueprints.size w' = (Returned (S n), w') ∧
    blueprints w' !! name blueprint = Some blueprint ∧
    stdout w' = stdout w.
Proof.
  intros Hnew. rewrite add_blueprint_run, (contains_false _ _ Hnew).
  eexists. exists (size (blueprints w)). split; [done|]. split; [done|].
  split; [|split; [apply lookup_insert_eq|done]].
  unfold Blueprints.size, mbind, M_bind, self_blueprints, mret, M_ret. simpl.
  by rewrite map_size_insert_None.
Qed.

Lemma add_blueprint_new_name_witness :
  ∃ w' n,
    Blueprints.add_blueprint (recipe "Z" [("Ore", 2%Z)]) nested = (Returned (), w') ∧
    Blueprints.size nested = (Returned n, nested) ∧
    Blueprints.size w' = (Returned (S n), w') ∧
    blueprints w' !! lit "Z" = Some (recipe "Z" [("Ore", 2%Z)]) ∧
    stdout w' = stdout nested.
Proof. apply (add_blueprint_new_name nested (recipe "Z" [("Ore", 2%Z)])). reflexivity. Defined.

(** X2. [add_blueprint] keeps every blueprint stored under its own name: if
    this holds before the call it holds after it, and it holds of every
    collection that was filled by [add_blueprint] alone. *)
Theorem add_blueprint_keyed_by_name (w : World) (blueprint : Blueprint) :
  keyed_by_name (blueprints w) →
  keyed_by_name (blueprints (Blueprints.add_blueprint blueprint w).2) ∧
  ∀ bs, keyed_by_name (blueprints (add_all bs w)).
Proof.
  intros Hw.
  assert (Hstep : ∀ w' b, keyed_by_name (blueprints w') →
            keyed_by_name (blueprints (Blueprints.add_blueprint b w').2)).
  { intros w' b H. rewrite add_blueprint_run. simpl. by apply map_Forall_insert_2. }
  split; [by apply Hstep|].
  intros bs. revert w Hw. induction bs as [|b bs IH]; intros w Hw; [done|].
  apply IH. by apply Hstep.
Qed.

Lemma add_blueprint_keyed_by_name_witness :
  keyed_by_name (blueprints (Blueprints.add_blueprint (recipe "Z" []) nested).2) ∧
  ∀ bs, keyed_by_name (blueprints (add_all bs nested)).
Proof.
  apply (add_blueprint_keyed_by_name nested (recipe "Z" [])).
  unfold keyed_by_name. apply (bool_decide_unpack _). exact I.
Defined.

(** X3. The order in which two blueprints of different names are added
    does not show in the collection, and adding the same blueprint a second
    time changes nothing in it. *)
Theorem add_blueprint_order (w : World) (b1 b2 : Blueprint) :
  (name b1 ≠ name b2 →
   blueprints (add_all [b1; b2] w) = blueprints (add_all [b2; b1] w)) ∧
  blueprints (add_all [b1; b1] w) = blueprints (add_all [b1] w).
Proof.
  unfold add_all. simpl. rewrite !add_blueprint_run. simpl. split.
  - intros Hne. by apply insert_insert_ne.
  - apply insert_insert_eq.
Qed.

Lemma add_blueprint_order_witness :
  blueprints (add_all [recipe "A" []; recipe "B" []] nested)
  = blueprints (add_all [recipe "B" []; recipe "A" []] nested) ∧
  blueprints (add_all [recipe "A" []; recipe "A" []] nested)
  = blueprints (add_all [recipe "A" []] nested).
Proof.
  split.
  - apply (proj1 (add_blueprint_order nested (recipe "A" []) (recipe "B" []))).
    discriminate.
  - apply (proj2 (add_blueprint_order nested (recipe "A" []) (recipe "B" []))).
Defined.

Lemma add_all_snoc bs b w :
  add_all (bs ++ [b]) w = (Blueprints.add_blueprint b (add_all bs w)).2.
Proof. unfold add_all. by rewrite foldl_app. Qed.

(** X4. After any number of calls of [add_blueprint], a name is stored with
    the last blueprint that was added under it (with what was there before
    when none was), and every call has either made the collection one larger
    or printed one warning. *)
Theorem add_all_last_wins (bs : list Blueprint) (w : World) :
  (∀ k, blueprints (add_all bs w) !! k
        = match last (filter (λ b, name b = k) bs) with
          | Some b => Some b
          | None => blueprints w !! k
          end) ∧
  size (blueprints (add_all bs w)) + length (stdout (add_all bs w))
  = size (blueprints w) + length (stdout w) + length bs.
Proof.
  induction bs as [|b bs [IHlook IHsize]] using rev_ind; [done|].
  rewrite add_all_snoc, add_blueprint_run. simpl. split.
  - intros k. rewrite filter_app, filter_cons, filter_nil.
    destruct (decide (name b = k)) as [<-|Hne].
    + by rewrite last_snoc, lookup_insert_eq.
    + rewrite (right_id_L [] (++)), lookup_insert_ne by done. apply IHlook.
  - rewrite length_app. simpl.
    destruct (blueprints (add_all bs w) !! name b) as [old|] eqn:Hold.
    + rewrite (contains_true _ _ _ Hold), map_size_insert_Some, length_app by eauto.
      by rewrite !Nat.add_assoc, IHsize.
    + rewrite (contains_false _ _ Hold), map_size_insert_None by done.
      rewrite Nat.add_assoc, <- IHsize. simpl. by rewrite Nat.add_1_r.
Qed.

(** ** materials_list and pack_list *)

Lemma length_materials_list (b : Blueprint) :
  length (materials_list b) = sum_list ((λ p, Z.to_nat p.2) <$> materials b).
Proof.
  unfold materials_list. induction (materials b) as [|[m q] ms IH]; [done|].
  rewrite !fmap_cons, mjoin_cons, length_app, length_replicate, IH. done.
Qed.

(** X5. [materials_list] holds as many entries as the positive quantities
    add up to, and an ingredient is in it exactly when its quantity is
    positive: a quantity of zero or less leaves no trace. *)
Theorem materials_list_positive_only (b : Blueprint) :
  length (materials_list b) = sum_list ((λ p, Z.to_nat p.2) <$> materials b) ∧
  ∀ k, k ∈ materials_list b ↔ ∃ q, (k, q) ∈ materials b ∧ (0 < q)%Z.
Proof. split; [apply length_materials_list|apply elem_of_materials_list]. Qed.





(** X7. The table of a concatenation is the sum of the tables: a key of
    both gets the sum of its two counts, a key of one keeps its count, and
    the table of the empty list is empty. *)
Theorem pack_list_app (l1 l2 : list str) :
  pack_list (l1 ++ l2)
  = union_with (λ n1 n2, Some (n1 + n2)) (pack_list l1) (pack_list l2) ∧
  pack_list [] = ∅.
Proof.
  split; [|done]. apply map_eq. intros k.
  rewrite lookup_union_with, !lookup_pack_list, count_app.
  destruct (decide (k ∈ l1)) as [H1|H1], (decide (k ∈ l2)) as [H2|H2]; simpl.
  - by rewrite decide_True by (apply elem_of_app; by left).
  - rewrite decide_True by (apply elem_of_app; by left).
    apply count_zero in H2. by rewrite H2, Nat.add_0_r.
  - rewrite decide_True by (apply elem_of_app; by right).
    apply count_zero in H1. by rewrite H1.
  - by rewrite decide_False by (by intros [?|?]%elem_of_app).
Qed.

(** ** find_materials *)

Lemma expansion_sn bps q leaves n :
  expansion bps q leaves n → Forall (sn (needs bps)) q.
Proof.
  induction 1 as [|m ms ls n Hm _ IH|m b ms la na lb nb Hm _ IHa _ IHb].
  - apply Forall_nil_2.
  - apply Forall_cons_2; [|exact IH].
    apply Acc_intro. intros y (b & Hb & _). congruence.
  - apply Forall_cons_2; [|exact IHb].
    apply Acc_intro. intros y (b' & Hb' & Hy).
    assert (b' = b) as -> by congruence.
    exact (proj1 (Forall_forall _ _) IHa y Hy).
Qed.

(** X8. [find_materials] returns, given enough steps, exactly for the
    stored names from which no chain of ingredients goes on for ever. *)
Theorem find_materials_returns_iff (w : World) (x : str) :
  (∃ l, resolves w x l) ↔
  is_Some (blueprints w !! x) ∧ sn (needs (blueprints w)) x.
Proof.
  split.
  - intros [l Hl]. pose proof (resolves_present _ _ _ Hl) as [b Hb].
    split; [by eexists|].
    destruct (resolves_expansion _ _ _ _ Hb Hl) as (leaves & n & Hexp & _).
    apply expansion_sn in Hexp.
    constructor. intros y (b' & Hb' & Hy). simplify_eq.
    by eapply Forall_forall in Hexp.
  - intros [Hx Hsn]. by apply sn_resolves.
Qed.

(** X9. A blueprint none of whose quantities is positive resolves to the
    empty list in one step, whatever its ingredients are, itself included. *)
Theorem find_materials_no_positive_quantity (w : World) (x : str) (b : Blueprint) :
  blueprints w !! x = Some b →
  Forall (λ p, (p.2 ≤ 0)%Z) (materials b) →
  ∀ fuel, 0 < fuel → Blueprints.find_materials fuel x w = (Returned [], w).
Proof.
  intros Hb Hq fuel Hfuel.
  assert (Hnil : materials_list b = []).
  { destruct (materials_list b) as [|m l] eqn:Hml; [done|].
    assert (Hm : m ∈ materials_list b) by (rewrite Hml; left).
    apply elem_of_materials_list in Hm as (q & Hin & Hpos).
    eapply Forall_forall in Hq; [|done]. simpl in Hq. lia. }
  rewrite (find_materials_unfold _ _ _ b), Hnil by done.
  destruct fuel as [|fuel]; [lia|]. by rewrite loop_end.
Qed.

Lemma find_materials_no_positive_quantity_witness :
  Blueprints.find_materials 1 (lit "Void")
    (collection [recipe "Void" [("Void", 0%Z); ("Ore", (-2)%Z)]])
  = (Returned [], collection [recipe "Void" [("Void", 0%Z); ("Ore", (-2)%Z)]]).
Proof.
  apply (find_materials_no_positive_quantity
           (collection [recipe "Void" [("Void", 0%Z); ("Ore", (-2)%Z)]]) (lit "Void")
           (recipe "Void" [("Void", 0%Z); ("Ore", (-2)%Z)])).
  - reflexivity.
  - repeat constructor; simpl; lia.
  - lia.
Defined.

Lemma find_materials_work_list w x b leaves n fuel :
  blueprints w !! x = Some b →
  expansion (blueprints w) (materials_list b) leaves n →
  n < fuel →
  ∃ ext, Blueprints.find_materials fuel x w
         = (Returned (filter (λ m, blueprints w !! m = None) (materials_list b ++ ext)), w).
Proof.
  intros Hb Hexp Hfuel.
  destruct (loop_expansion w n _ _ Hexp fuel [] [] Hfuel)
    as (ext & removed & Hloop & Hrem & Hperm).
  simpl in *. rewrite (find_materials_unfold _ _ _ b), Hloop by done.
  exists ext. f_equal. f_equal. apply keep_rest_filter.
  intros i m Hi. rewrite Hrem. split; [by intros (_ & ? & ? & ?); simplify_eq|].
  intros Hsome. split; [lia|eauto].
Qed.

(** Every craftable entry of a work list that expands resolves. *)
Lemma expansion_ingredient_resolves w q leaves n :
  expansion (blueprints w) q leaves n →
  ∀ y, y ∈ q → is_Some (blueprints w !! y) → ∃ l, resolves w y l.
Proof.
  induction 1 as [|m ms ls n Hm _ IH|m b ms la na lb nb Hm Ha _ _ IH];
    intros y Hy Hsome.
  - by apply elem_of_nil in Hy.
  - apply elem_of_cons in Hy as [->|Hy]; [|by apply IH].
    rewrite Hm in Hsome. by destruct Hsome.
  - apply elem_of_cons in Hy as [->|Hy]; [|by apply IH].
    destruct (expansion_resolves w m b la na Hm Ha) as (l & Hl & _). eauto.
Qed.

(** The raw entries of a list, then what the craftable ones stand for. *)
Lemma join_raw_first (bps : gmap str Blueprint) (per_unit : str → list str) ms :
  mjoin ((λ y, if contains y bps then per_unit y else [y]) <$> ms)
  ≡ₚ filter (λ m, bps !! m = None) ms
     ++ mjoin (per_unit <$> filter (λ m, is_Some (bps !! m)) ms).
Proof.
  induction ms as [|m ms IH]; [done|].
  rewrite fmap_cons, mjoin_cons, IH, !filter_cons.
  destruct (bps !! m) as [b|] eqn:Hm.
  - rewrite (contains_true _ _ _ Hm), decide_False, decide_True by done.
    rewrite fmap_cons, mjoin_cons. apply Permutation_app_swap_app.
  - rewrite (contains_false _ _ Hm), decide_True, decide_False
      by (try done; by intros [? ?]).
    done.
Qed.

(** X10. The list that [find_materials] returns starts with the raw direct
    ingredients of the item, in the order of its [materials_list]. What
    follows them is raw too, and it is, up to the order, what the craftable
    direct ingredients resolve to, one after the other and unit by unit. *)
Theorem find_materials_raw_ingredients_first (w : World) (x : str)
    (b : Blueprint) (l : list str) :
  blueprints w !! x = Some b →
  resolves w x l →
  ∃ rest (per_unit : str → list str),
    l = filter (λ m, blueprints w !! m = None) (materials_list b) ++ rest ∧
    Forall (λ m, blueprints w !! m = None) rest ∧
    (∀ y, y ∈ materials_list b → is_Some (blueprints w !! y) →
          resolves w y (per_unit y)) ∧
    rest ≡ₚ mjoin (per_unit <$>
                     filter (λ m, is_Some (blueprints w !! m)) (materials_list b)).
Proof.
  intros Hb Hl.
  destruct (resolves_expansion _ _ _ _ Hb Hl) as (leaves & n & Hexp & Hperm).
  destruct (find_materials_work_list w x b leaves n (S n) Hb Hexp ltac:(lia))
    as (ext & Hrun).
  pose proof (resolves_unique _ _ _ _ Hl (ex_intro _ (S n) Hrun)) as Heq.
  rewrite filter_app in Heq.
  destruct (resolves_common_fuel w
              (filter (λ m, is_Some (blueprints w !! m)) (materials_list b)))
    as (fuel & per_unit & Hunit).
  { intros k [Hk Hin]%list_elem_of_filter.
    by apply (expansion_ingredient_resolves w _ _ _ Hexp). }
  exists (filter (λ m, blueprints w !! m = None) ext), per_unit.
  split; [done|]. split; [|split].
  - apply Forall_forall. by intros m [? _]%list_elem_of_filter.
  - intros y Hy Hsome. exists fuel. by apply Hunit, list_elem_of_filter.
  - apply (Permutation_app_inv_l
             (filter (λ m, blueprints w !! m = None) (materials_list b))).
    rewrite <- Heq, Hperm, <- join_raw_first.
    apply (expansion_per_unit w _ _ _ n Hexp).
    intros y Hy. destruct (contains y (blueprints w)) eqn:Hc; [|done].
    exists fuel. apply Hunit, list_elem_of_filter. split; [|done].
    by apply bool_decide_eq_true in Hc.
Qed.

Lemma find_materials_raw_ingredients_first_witness :
  ∃ rest (per_unit : str → list str),
    lit "Leather" :: replicate 6 (lit "Iron Ore")
    = filter (λ m, blueprints armoury !! m = None)
        (materials_list (recipe "Iron Sword" [("Iron Bar", 2%Z); ("Leather", 1%Z)]))
      ++ rest ∧
    Forall (λ m, blueprints armoury !! m = None) rest ∧
    (∀ y, y ∈ materials_list (recipe "Iron Sword" [("Iron Bar", 2%Z); ("Leather", 1%Z)]) →
          is_Some (blueprints armoury !! y) → resolves armoury y (per_unit y)) ∧
    rest ≡ₚ mjoin (per_unit <$>
                     filter (λ m, is_Some (blueprints armoury !! m))
                       (materials_list
                          (recipe "Iron Sword" [("Iron Bar", 2%Z); ("Leather", 1%Z)]))).
Proof.
  apply (find_materials_raw_ingredients_first armoury (lit "Iron Sword")).
  - reflexivity.
  - exists 10. reflexivity.
Defined.

Lemma loop_same_lookups (bps' : gmap str Blueprint) fuel :
  ∀ result to_remove idx w w',
  blueprints w' = bps' →
  (∀ m y, m ∈ result → rtc (needs (blueprints w)) m y →
          bps' !! y = blueprints w !! y) →
  (Blueprints.find_materials_loop fuel result to_remove idx w').1
  = (Blueprints.find_materials_loop fuel result to_remove idx w).1.
Proof.
  induction fuel as [|fuel IH]; intros result to_remove idx w w' Hw' Hsame; [done|].
  destruct (result !! idx) as [m|] eqn:Hm; [|by rewrite !loop_end].
  assert (Hin : m ∈ result) by by eapply list_elem_of_lookup_2.
  pose proof (Hsame m m Hin (rtc_refl _ _)) as Hlook. rewrite <- Hw' in Hlook.
  destruct (blueprints w !! m) as [b|] eqn:Hb.
  - rewrite (loop_craftable _ _ _ _ w' m b), (loop_craftable _ _ _ _ w m b) by done.
    apply IH; [done|]. intros m' y [Hm'|Hm']%elem_of_app Hy; [by eapply Hsame|].
    apply (Hsame m y Hin). eapply rtc_l; [|done]. by exists b.
  - rewrite (loop_raw _ _ _ _ w' m), (loop_raw _ _ _ _ w m) by done.
    by apply IH.
Qed.

Lemma find_materials_same_lookups w w' x fuel :
  (∀ y, rtc (needs (blueprints w)) x y → blueprints w' !! y = blueprints w !! y) →
  (Blueprints.find_materials fuel x w').1 = (Blueprints.find_materials fuel x w).1.
Proof.
  intros Hsame. pose proof (Hsame x (rtc_refl _ _)) as Hx.
  destruct (blueprints w !! x) as [b|] eqn:Hb.
  - rewrite !(find_materials_unfold _ _ _ b) by done.
    pose proof (loop_same_lookups (blueprints w') fuel (materials_list b) [] 0 w w'
                  eq_refl) as Hloop.
    destruct (Blueprints.find_materials_loop fuel _ _ _ w') as [o' w1'].
    destruct (Blueprints.find_materials_loop fuel _ _ _ w) as [o w1].
    simpl in Hloop. rewrite Hloop; [by destruct o as [[? ?]| |]|].
    intros m y Hm Hy. apply Hsame. eapply rtc_l; [|done]. by exists b.
  - by rewrite !find_materials_absent.
Qed.

(** X11. Adding a blueprint under a name that cannot be reached from an
    item along its ingredients, the item itself included, does not change
    what [find_materials] gives for that item, for any number of steps. *)
Theorem add_blueprint_unreachable (w : World) (blueprint : Blueprint) (x : str) :
  (∀ y, rtc (needs (blueprints w)) x y → y ≠ name blueprint) →
  ∀ fuel,
    (Blueprints.find_materials fuel x (Blueprints.add_blueprint blueprint w).2).1
    = (Blueprints.find_materials fuel x w).1.
Proof.
  intros Hfar fuel. apply find_materials_same_lookups. intros y Hy.
  rewrite add_blueprint_run. simpl. apply lookup_insert_ne.
  intros Heq. by apply (Hfar y).
Qed.

Lemma reachable_mentioned bps x y :
  rtc (needs bps) x y →
  y = x ∨ y ∈ mjoin (materials_list <$> (map_to_list bps).*2).
Proof.
  intros H. destruct H as [|x z y Hxz Hzy]; [by left|right].
  assert (Htc : tc (needs bps) x y) by by eapply tc_rtc_r; [apply tc_once|].
  apply tc_needs_last in Htc as [z' (b & Hz & Hy)].
  apply list_elem_of_join. exists (materials_list b). split; [done|].
  apply list_elem_of_fmap_2, list_elem_of_fmap. exists (z', b).
  split; [done|]. by apply elem_of_map_to_list.
Qed.

Lemma add_blueprint_unreachable_witness :
  (Blueprints.find_materials 4 (lit "Y")
     (Blueprints.add_blueprint (recipe "Q" [("Y", 1%Z)]) nested).2).1
  = (Blueprints.find_materials 4 (lit "Y") nested).1.
Proof.
  generalize 4.
  apply (add_blueprint_unreachable nested (recipe "Q" [("Y", 1%Z)]) (lit "Y")).
  intros y [->|Hy]%reachable_mentioned; [done|].
  intros ->. revert Hy. apply (bool_decide_unpack _). exact I.
Defined.

(** ** find_keyword *)

Lemma dict_of_no_raise {V} (f : str → M V) w e :
  ∀ ks d,
  (∀ k, k ∈ ks → (f k w).2 = w ∧ (f k w).1 ≠ Raised e) →
  (Blueprints.dict_of f ks d w).1 ≠ Raised e.
Proof.
  induction ks as [|k ks IH]; intros d Hf; [done|].
  simpl. unfold mbind, M_bind.
  destruct (Hf k ltac:(by left)) as [Hw Hraise].
  destruct (f k w) as [[v|e'|] w'] eqn:Hfk; simpl in *; subst.
  - apply IH. intros k' Hk'. apply Hf. by right.
  - intros [= ->]. by apply Hraise.
  - discriminate.
Qed.

(** What a comprehension that returned says about its parts. *)
Lemma dict_of_returned_inv {V} (f : str → M V) w :
  (∀ k, (f k w).2 = w) →
  ∀ ks d r,
  Blueprints.dict_of f ks d w = (Returned r, w) →
  (∀ k, k ∈ ks → ∃ v, f k w = (Returned v, w)) ∧
  ∀ k, r !! k = if decide (k ∈ ks)
                then match (f k w).1 with Returned v => Some v | _ => None end
                else d !! k.
Proof.
  intros Hframe. induction ks as [|k ks IH]; intros d r H.
  - simpl in H. injection H as <-. split; [by intros k ?%elem_of_nil|].
    intros k. by rewrite decide_False by apply not_elem_of_nil.
  - simpl in H. unfold mbind, M_bind in H. pose proof (Hframe k) as Hw.
    destruct (f k w) as [[v| |] w'] eqn:Hfk; simpl in Hw; subst; [|done..].
    apply IH in H as [Hall Hlook]. split.
    + intros k' [->|Hk']%elem_of_cons; [eauto|by apply Hall].
    + intros k'. rewrite Hlook. destruct (decide (k' ∈ ks)) as [Hin|Hin].
      * by rewrite decide_True by (by right).
      * destruct (decide (k' = k)) as [->|Hne].
        -- by rewrite decide_True, lookup_insert_eq, Hfk by left.
        -- rewrite decide_False by (by intros [?|?]%elem_of_cons).
           by apply lookup_insert_ne.
Qed.

Lemma find_keyword_returned_inv (lower : str → str) fuel keyword w r :
  Blueprints.find_keyword lower fuel keyword w = (Returned r, w) →
  ∀ k, r !! k
       = if decide (is_Some (blueprints w !! k) ∧
                    str_in (lower keyword) (lower k) = true)
         then match (Blueprints.find_materials fuel k w).1 with
              | Returned l => Some (pack_list l)
              | _ => None
              end
         else None.
Proof.
  intros H k. rewrite find_keyword_unfold in H.
  apply dict_of_returned_inv in H as [Hall Hlook].
  - rewrite Hlook, lookup_empty.
    destruct (decide (k ∈ filter _ (keys (blueprints w)))) as [Hin|Hin].
    + apply list_elem_of_filter in Hin as [? ?%elem_of_keys].
      rewrite decide_True by done. unfold mbind, M_bind.
      by destruct (Blueprints.find_materials fuel k w) as [[?| |] ?].
    + rewrite decide_False; [done|]. intros [? ?]. apply Hin.
      by apply list_elem_of_filter, conj, elem_of_keys.
  - intros k'. unfold mbind, M_bind.
    pose proof (find_materials_frame fuel k' w) as Hw.
    by destruct (Blueprints.find_materials fuel k' w) as [[?| |] ?].
Qed.

Lemma find_keyword_returned_matched (lower : str → str) fuel keyword w r k :
  Blueprints.find_keyword lower fuel keyword w = (Returned r, w) →
  is_Some (blueprints w !! k) → str_in (lower keyword) (lower k) = true →
  ∃ l, Blueprints.find_materials fuel k w = (Returned l, w).
Proof.
  intros H Hk Hin. rewrite find_keyword_unfold in H.
  apply dict_of_returned_inv in H as [Hall _].
  - destruct (Hall k) as [v Hv].
    { by apply list_elem_of_filter, conj, elem_of_keys. }
    unfold mbind, M_bind in Hv.
    pose proof (find_materials_frame fuel k w) as Hw.
    destruct (Blueprints.find_materials fuel k w) as [[l| |] w'];
      simpl in *; subst; [eauto|done..].
  - intros k'. unfold mbind, M_bind.
    pose proof (find_materials_frame fuel k' w) as Hw.
    by destruct (Blueprints.find_materials fuel k' w) as [[?| |] ?].
Qed.

(** X12. [find_keyword] raises no exception, on any collection, for any
    keyword and any number of steps: it asks [find_materials] for stored
    names only. *)
Theorem find_keyword_never_raises (lower : str → str) (w : World) (keyword : str)
    (fuel : nat) (e : exn) :
  (Blueprints.find_keyword lower fuel keyword w).1 ≠ Raised e.
Proof.
  rewrite find_keyword_unfold. apply dict_of_no_raise.
  intros k [_ Hk%elem_of_keys]%list_elem_of_filter. unfold mbind, M_bind.
  pose proof (find_materials_frame fuel k w) as Hw.
  pose proof (find_materials_no_raise fuel k w) as Hr.
  destruct (Blueprints.find_materials fuel k w) as [[a|e'|] w']; simpl in *;
    [done| |done].
  by destruct (Hr e' Hk).
Qed.

(** X13. [lower] is [str.lower], whatever it does to a string. When the
    lower-case form of the keyword occurs in the lower-case form of no
    stored name, [find_keyword] returns the empty dict without resolving
    anything: in no step at all, and also on a collection with cycles. *)
Theorem find_keyword_no_match (lower : str → str) (w : World) (keyword : str) :
  (∀ k, is_Some (blueprints w !! k) → ¬ occurs_ignoring_case lower keyword k) →
  ∀ fuel, Blueprints.find_keyword lower fuel keyword w = (Returned ∅, w).
Proof.
  intros Hnone fuel. rewrite find_keyword_unfold.
  assert (Hks : filter (λ k, str_in (lower keyword) (lower k) = true)
                  (keys (blueprints w)) = []).
  { apply elem_of_nil_inv. intros k [Hin Hk%elem_of_keys]%list_elem_of_filter.
    apply (Hnone k Hk). by apply str_in_lower. }
  by rewrite Hks.
Qed.

Lemma find_keyword_no_match_witness :
  Blueprints.find_keyword lower_ascii 7 (lit "sword") looping = (Returned ∅, looping).
Proof.
  generalize 7.
  apply (find_keyword_no_match lower_ascii looping (lit "sword")).
  assert (Hall : Forall (λ k, str_in (lower_ascii (lit "sword")) (lower_ascii k) = false)
                   (keys (blueprints looping))).
  { apply (bool_decide_unpack _). exact I. }
  intros k Hk Hocc%str_in_lower. apply elem_of_keys in Hk.
  eapply Forall_forall in Hall; [|exact Hk]. congruence.
Defined.

Lemma str_in_trans (a b c : str) :
  str_in a b = true → str_in b c = true → str_in a c = true.
Proof.
  rewrite !str_in_spec. intros (p1 & q1 & ->) (p2 & q2 & ->).
  exists (p2 ++ p1), (q1 ++ q2). by rewrite <- !(assoc_L (++)).
Qed.

(** X14. [lower] is [str.lower], whatever it does to a string. Narrowing
    the keyword narrows the result: when the lower-case form of one keyword
    occurs in the lower-case form of a second one, and the search for the
    first returns, then the search for the second returns within the same
    steps, and its table is the table of the first restricted to the names
    that the second keyword matches. *)
Theorem find_keyword_narrowing (lower : str → str) (w : World)
    (keyword1 keyword2 : str) (fuel : nat) (r1 : gmap str (gmap str nat)) :
  occurs_ignoring_case lower keyword1 keyword2 →
  Blueprints.find_keyword lower fuel keyword1 w = (Returned r1, w) →
  ∃ r2,
    Blueprints.find_keyword lower fuel keyword2 w = (Returned r2, w) ∧
    r2 ⊆ r1 ∧
    ∀ k, r2 !! k = if str_in (lower keyword2) (lower k) then r1 !! k else None.
Proof.
  intros Hocc%str_in_lower H1.
  pose proof (find_keyword_returned_inv _ _ _ _ _ H1) as Hr1.
  set (ks := filter (λ k, str_in (lower keyword2) (lower k) = true)
               (keys (blueprints w))).
  set (r2 := foldl (λ (d' : gmap str (gmap str nat)) k,
                      <[k := default ∅ (r1 !! k)]> d') ∅ ks).
  assert (Hret : Blueprints.find_keyword lower fuel keyword2 w = (Returned r2, w)).
  { rewrite find_keyword_unfold. fold ks. apply dict_of_returned.
    intros k [Hin Hk%elem_of_keys]%list_elem_of_filter.
    destruct (find_keyword_returned_matched _ _ _ _ _ k H1 Hk) as [l Hl].
    { by eapply str_in_trans. }
    rewrite (bind_returned _ _ w w l Hl). unfold mret, M_ret. do 2 f_equal.
    rewrite Hr1, decide_True, Hl; [done|]. split; [done|by eapply str_in_trans]. }
  assert (Hlook : ∀ k, r2 !! k
            = if str_in (lower keyword2) (lower k) then r1 !! k else None).
  { intros k. unfold r2. rewrite lookup_foldl_insert, lookup_empty.
    destruct (decide (k ∈ ks)) as [Hin|Hin].
    - apply list_elem_of_filter in Hin as [Hin Hk%elem_of_keys]. rewrite Hin.
      destruct (find_keyword_returned_matched _ _ _ _ _ k H1 Hk) as [l Hl].
      { by eapply str_in_trans. }
      rewrite Hr1, decide_True, Hl; [done|]. split; [done|by eapply str_in_trans].
    - destruct (str_in (lower keyword2) (lower k)) eqn:Hin2; [|done].
      rewrite Hr1, decide_False; [done|]. intros [Hk _]. apply Hin.
      by apply list_elem_of_filter, conj, elem_of_keys. }
  exists r2. split; [exact Hret|]. split; [|exact Hlook].
  apply map_subseteq_spec. intros k v. rewrite Hlook.
  by destruct (str_in (lower keyword2) (lower k)).
Qed.

Lemma find_keyword_narrowing_witness :
  ∃ r2,
    Blueprints.find_keyword lower_ascii 10 (lit "Iron S") armoury = (Returned r2, armoury) ∧
    r2 ⊆ <[lit "Iron Sword" := <[lit "Leather" := 1]> {[lit "Iron Ore" := 6]}]>
           {[lit "Iron Bar" := {[lit "Iron Ore" := 3]}]} ∧
    ∀ k, r2 !! k
         = if str_in (lower_ascii (lit "Iron S")) (lower_ascii k)
           then (<[lit "Iron Sword" := <[lit "Leather" := 1]> {[lit "Iron Ore" := 6]}]>
                   {[lit "Iron Bar" := {[lit "Iron Ore" := 3]}]} : gmap str (gmap str nat)) !! k
           else None.
Proof.
  apply (find_keyword_narrowing lower_ascii armoury (lit "IRON") (lit "Iron S") 10).
  - by exists [], (lit " s").
  - reflexivity.
Defined.

(** X15. Every table that [find_keyword] returns lists raw materials only,
    each with a count of at least 1: no stored blueprint name is among the
    materials. *)
Theorem find_keyword_tables_raw (lower : str → str) (w : World) (keyword : str)
    (fuel : nat) (r : gmap str (gmap str nat)) (k m : str)
    (counts : gmap str nat) (n : nat) :
  Blueprints.find_keyword lower fuel keyword w = (Returned r, w) →
  r !! k = Some counts →
  counts !! m = Some n →
  blueprints w !! m = None ∧ 0 < n.
Proof.
  intros H Hk Hm. rewrite (find_keyword_returned_inv _ _ _ _ _ H) in Hk.
  destruct (decide _) as [[Hstored Hin]|]; [|done].
  destruct (find_keyword_returned_matched _ _ _ _ _ k H Hstored Hin) as [l Hl].
  rewrite Hl in Hk. simpl in Hk. injection Hk as <-.
  rewrite lookup_pack_list in Hm. destruct (decide (m ∈ l)) as [Hml|]; [|done].
  injection Hm as <-. split; [|by apply count_pos].
  assert (Hres : resolves w k l) by by exists fuel.
  apply resolves_raw in Hres. by eapply Forall_forall in Hres.
Qed.

Lemma find_keyword_tables_raw_witness :
  blueprints armoury !! lit "Iron Ore" = None ∧ 0 < 6.
Proof.
  apply (find_keyword_tables_raw lower_ascii armoury (lit "sword") 10
           {[lit "Iron Sword" := <[lit "Leather" := 1]> {[lit "Iron Ore" := 6]}]}
           (lit "Iron Sword") (lit "Iron Ore") (<[lit "Leather" := 1]> {[lit "Iron Ore" := 6]}) 6);
    reflexivity.
Defined.

(** X16. [lower] is [str.lower], whatever it does to a string.
    [find_keyword] returns, given enough steps, exactly when no chain of
    ingredients that starts at a matched name, a stored name whose
    lower-case form contains the one of the keyword, goes on for ever. *)
Theorem find_keyword_returns_iff (lower : str → str) (w : World) (keyword : str) :
  (∃ fuel r, Blueprints.find_keyword lower fuel keyword w = (Returned r, w)) ↔
  ∀ k, is_Some (blueprints w !! k) → occurs_ignoring_case lower keyword k →
       sn (needs (blueprints w)) k.
Proof.
  split.
  - intros (fuel & r & H) k Hk Hocc%str_in_lower.
    destruct (find_keyword_returned_matched _ _ _ _ _ k H Hk Hocc) as [l Hl].
    destruct Hk as [b Hb].
    destruct (resolves_expansion w k b l Hb (ex_intro _ fuel Hl))
      as (leaves & n & Hexp & _).
    apply expansion_sn in Hexp.
    apply Acc_intro. intros y (b' & Hb' & Hy).
    assert (b' = b) as -> by congruence.
    exact (proj1 (Forall_forall _ _) Hexp y Hy).
  - intros Hsn. destruct (find_keyword_returns lower w keyword) as (fuel & r & Hr & _).
    { intros k Hk Hin. apply sn_resolves; [|done].
      apply Hsn; [done|]. by apply str_in_lower. }
    eauto.
Qed.

(** ** create_blueprint *)

Lemma str_all_cons cls c s :
  str_all cls (c :: s) ↔ cls c = true ∧ str_all cls s.
Proof.
  unfold str_all. simpl. destruct (cls c).
  - split; [intros [= H]; by split|intros [_ ->]; done].
  - split; [done|by intros [? _]].
Qed.

Lemma run_length_le cls s : run_length cls s ≤ length s.
Proof. induction s as [|c s IH]; simpl; [done|]. destruct (cls c); lia. Qed.

Lemma run_length_app cls (a b : str) :
  str_all cls a → run_length cls (a ++ b) = length a + run_length cls b.
Proof.
  induction a as [|c a IH]; [done|].
  intros [Hc Ha]%str_all_cons. simpl. rewrite Hc. by rewrite IH.
Qed.

Lemma str_all_take cls s k : k ≤ run_length cls s → str_all cls (take k s).
Proof.
  revert s. induction k as [|k IH]; intros s Hk; [by destruct s|].
  destruct s as [|c s]; [done|]. simpl in *.
  destruct (cls c) eqn:Hc; [|lia]. apply str_all_cons. split; [done|].
  apply IH. lia.
Qed.

Lemma backtrack_unfold least rest s k :
  backtrack least rest s k
  = match (if decide (least ≤ k)
           then cons (take k s) <$> rest (drop k s) else None) with
    | Some groups => Some groups
    | None => match k with O => None | S k' => backtrack least rest s k' end
    end.
Proof. by destruct k. Qed.

(** The first try of a repetition that succeeds is the answer. *)
Lemma backtrack_first least rest s k groups :
  least ≤ k → rest (drop k s) = Some groups →
  backtrack least rest s k = Some (take k s :: groups).
Proof. intros Hk Hrest. by rewrite backtrack_unfold, decide_True, Hrest. Qed.

(** Whatever a repetition ends up with, it is a run of the class that is
    long enough, followed by a match of the rest. *)
Lemma backtrack_Some least rest s k groups :
  backtrack least rest s k = Some groups →
  ∃ k' groups', k' ≤ k ∧ least ≤ k' ∧
    groups = take k' s :: groups' ∧ rest (drop k' s) = Some groups'.
Proof.
  induction k as [|k IH]; rewrite backtrack_unfold; intros H.
  - destruct (decide (least ≤ 0)) as [Hl|]; [|done].
    destruct (rest (drop 0 s)) as [g|] eqn:Hrest; [|done].
    injection H as <-. by exists 0, g.
  - destruct (decide (least ≤ S k)) as [Hl|].
    + destruct (rest (drop (S k) s)) as [g|] eqn:Hrest.
      * injection H as <-. by exists (S k), g.
      * destruct (IH H) as (k' & g' & ? & ? & ? & ?). exists k', g'.
        split; [lia|done].
    + destruct (IH H) as (k' & g' & ? & ? & ? & ?). exists k', g'.
      split; [lia|done].
Qed.

Lemma match_here_char (c : N) (pat : list piece) (s : str) :
  match_here (Char c :: pat) (c :: s) = match_here pat s.
Proof. cbn [match_here]. by rewrite N.eqb_refl. Qed.

Lemma match_here_group cls least (pat : list piece) (a b : str) groups :
  str_all cls a → run_length cls b = 0 → least ≤ length a →
  match_here pat b = Some groups →
  match_here (Group cls least :: pat) (a ++ b) = Some (a :: groups).
Proof.
  intros Ha Hb Hleast Hrest. cbn [match_here].
  rewrite run_length_app, Hb, Nat.add_0_r by done.
  erewrite backtrack_first; [by rewrite take_app_length|done|].
  by rewrite drop_app_length.
Qed.

Lemma match_here_char_Some (c : N) (pat : list piece) (s : str) groups :
  match_here (Char c :: pat) s = Some groups →
  ∃ s', s = c :: s' ∧ match_here pat s' = Some groups.
Proof.
  cbn [match_here]. destruct s as [|c' s']; [done|].
  destruct (N.eqb_spec c c') as [->|]; [eauto|done].
Qed.

Lemma match_here_group_Some cls least (pat : list piece) (s : str) groups :
  match_here (Group cls least :: pat) s = Some groups →
  ∃ k groups', k ≤ run_length cls s ∧ least ≤ k ∧
    groups = take k s :: groups' ∧
    match_here pat (drop k s) = Some groups'.
Proof. cbn [match_here]. apply backtrack_Some. Qed.

Lemma findall_first_here (pat : list piece) (s : str) groups :
  match_here pat s = Some groups → findall_first pat s = Some groups.
Proof. intros H. destruct s; cbn [findall_first]; by rewrite H. Qed.

(** [REGEX_INGREDIENT] on a text that starts with a name free of opening
    parentheses and goes on with digits in parentheses; the closing
    parenthesis is no digit. *)
Lemma match_ingredient decimal (nm ds tail : str) :
  decimal close_paren = None →
  str_all (λ c, negb (c =? open_paren)%N) nm →
  str_all (isdigit decimal) ds → ds ≠ [] →
  findall_first (REGEX_INGREDIENT decimal)
    (nm ++ open_paren :: ds ++ close_paren :: tail)
  = Some [nm; ds].
Proof.
  intros Hparen Hnm Hds Hne.
  apply findall_first_here. unfold REGEX_INGREDIENT.
  apply match_here_group; [done|done|lia|].
  rewrite match_here_char.
  apply match_here_group; [done| | |].
  - simpl. unfold isdigit. rewrite Hparen. by rewrite bool_decide_eq_false_2.
  - destruct ds; [done|simpl; lia].
  - by rewrite match_here_char.
Qed.

(** What [REGEX_INGREDIENT] finds: a first group without opening
    parenthesis and a second group of one digit or more. *)
Lemma findall_first_groups decimal (text : str) (groups : list str) :
  findall_first (REGEX_INGREDIENT decimal) text = Some groups →
  ∃ g1 g2, groups = [g1; g2] ∧
    str_all (λ c, negb (c =? open_paren)%N) g1 ∧
    str_all (isdigit decimal) g2 ∧ g2 ≠ [].
Proof.
  assert (Hhere : ∀ s, match_here (REGEX_INGREDIENT decimal) s = Some groups →
            ∃ g1 g2, groups = [g1; g2] ∧
              str_all (λ c, negb (c =? open_paren)%N) g1 ∧
              str_all (isdigit decimal) g2 ∧ g2 ≠ []).
  { intros s H. unfold REGEX_INGREDIENT in H.
    apply match_here_group_Some in H as (k1 & gs1 & Hk1 & _ & -> & H).
    apply match_here_char_Some in H as (s1 & _ & H).
    apply match_here_group_Some in H as (k2 & gs2 & Hk2 & Hleast & -> & H).
    apply match_here_char_Some in H as (s2 & _ & H).
    cbn [match_here] in H. injection H as <-.
    exists (take k1 s), (take k2 s1). split; [done|].
    split; [by apply str_all_take|]. split; [by apply str_all_take|].
    intros Hnil. pose proof (run_length_le (isdigit decimal) s1).
    assert (length (take k2 s1) = k2) by (rewrite length_take; lia).
    rewrite Hnil in *. simpl in *. lia. }
  induction text as [|c text IH]; cbn [findall_first]; intros H.
  - destruct (match_here (REGEX_INGREDIENT decimal) []) eqn:Hm; [|done].
    injection H as ->. eauto.
  - destruct (match_here (REGEX_INGREDIENT decimal) (c :: text)) eqn:Hm.
    + injection H as ->. eauto.
    + by apply IH.
Qed.

Lemma int_from_nonneg decimal (s : str) : ∀ acc,
  (0 ≤ acc)%Z → (0 ≤ int_from decimal acc s)%Z.
Proof.
  induction s as [|c s IH]; intros acc Hacc; [done|].
  simpl. apply IH. lia.
Qed.

Lemma dict_setitem_keys {V} (k : str) (v : V) (d : list (str * V)) :
  (dict_setitem k v d).*1 = if decide (k ∈ d.*1) then d.*1 else d.*1 ++ [k].
Proof.
  induction d as [|[k' v'] d IH]; [done|]. cbn [dict_setitem].
  destruct (decide (k' = k)) as [->|Hne]; rewrite !fmap_cons; cbn [fst].
  - by rewrite decide_True by left.
  - rewrite IH. destruct (decide (k ∈ d.*1)) as [Hin|Hin].
    + by rewrite decide_True by (by right).
    + by rewrite decide_False by (by intros [?|?]%elem_of_cons).
Qed.

Lemma dict_setitem_wf {V} (k : str) (v : V) (d : list (str * V)) :
  dict_wf d → dict_wf (dict_setitem k v d).
Proof.
  unfold dict_wf. rewrite dict_setitem_keys. intros Hd.
  destruct (decide (k ∈ d.*1)); [done|].
  apply NoDup_app. split; [done|]. split; [|apply NoDup_singleton].
  intros x Hx ->%list_elem_of_singleton. done.
Qed.

Lemma dict_setitem_Forall {V} (P : V → Prop) (k : str) (v : V) (d : list (str * V)) :
  P v → Forall (λ p, P p.2) d → Forall (λ p, P p.2) (dict_setitem k v d).
Proof.
  intros Hv. induction 1 as [|[k' v'] d Hp Hd IH]; simpl; [by repeat constructor|].
  destruct (decide (k' = k)); by constructor.
Qed.

Lemma dict_setitem_fresh {V} (k : str) (v : V) (d : list (str * V)) :
  k ∉ d.*1 → dict_setitem k v d = d ++ [(k, v)].
Proof.
  induction d as [|[k' v'] d IH]; [done|]. simpl. intros Hk.
  rewrite decide_False by (intros ->; apply Hk; left).
  rewrite IH; [done|]. intros ?. apply Hk. by right.
Qed.

(** The loop of [create_blueprint] keeps a dict of non-negative quantities
    and writes to the output only. *)
Lemma read_ingredients_invariant lower decimal :
  ∀ ingredients materials w materials' w',
  read_ingredients lower decimal ingredients materials w = (Returned materials', w') →
  dict_wf materials → Forall (λ p, (0 ≤ p.2)%Z) materials →
  dict_wf materials' ∧ Forall (λ p, (0 ≤ p.2)%Z) materials' ∧
  blueprints w' = blueprints w.
Proof.
  induction ingredients as [|text ingredients IH];
    intros materials w materials' w' H Hwf Hq; simpl in H.
  - injection H as <- <-. done.
  - destruct (str_in (lit "crafts") (lower text)); [injection H as <- <-; done|].
    unfold mbind, M_bind, print in H. simpl in H.
    destruct (findall_first (REGEX_INGREDIENT decimal) text) as [groups|] eqn:Hfind.
    + apply findall_first_groups in Hfind as (g1 & g2 & -> & _ & Hg2 & _).
      apply IH in H as (? & ? & Hw); [done|by apply dict_setitem_wf|].
      apply (dict_setitem_Forall (λ q, (0 ≤ q)%Z)); [|done].
      by apply int_from_nonneg.
    + by apply IH in H as (? & ? & Hw).
Qed.

(** X17. The blueprint that [create_blueprint] returns has a dict of
    materials with distinct keys and quantities that are not negative, and
    the call leaves the collection as it was. *)
Theorem create_blueprint_materials (lower : str → str) (decimal : N → option N)
    (blueprint_info : str) (cells : list str)
    (item_type : option str) (w w' : World) (b : Blueprint) :
  create_blueprint lower decimal blueprint_info cells item_type w = (Returned b, w') →
  dict_wf (materials b) ∧
  Forall (λ p, (0 ≤ p.2)%Z) (materials b) ∧
  blueprints w' = blueprints w.
Proof.
  unfold create_blueprint, mbind, M_bind. intros H.
  destruct (read_ingredients _ _ _ [] w) as [[ms| |] w1] eqn:Hread; [|done..].
  injection H as <- <-. simpl.
  apply (read_ingredients_invariant _ _ _ _ _ _ _ Hread); [apply NoDup_nil_2|done].
Qed.

Lemma create_blueprint_materials_witness :
  dict_wf [(lit "Scrap", 4%Z); (lit "Aether Soul", 0%Z)] ∧
  Forall (λ p, (0 ≤ p.2)%Z) [(lit "Scrap", 4%Z); (lit "Aether Soul", 0%Z)] ∧
  blueprints {| blueprints := blueprints nested;
                stdout := [tab :: lit "- 'Scrap (1)'";
                           tab :: lit "- 'Aether Soul (0)'";
                           tab :: lit "- 'Scrap (4)'"] |}
  = blueprints nested.
Proof.
  apply (create_blueprint_materials lower_ascii decimal_ascii (lit "Blueprint: Lens")
           [lit "Scrap (1)"; lit "Aether Soul (0)"; []; lit "Scrap (4)"] None nested _
           (recipe "Lens" [("Scrap", 4%Z); ("Aether Soul", 0%Z)])).
  reflexivity.
Defined.

Lemma drop_last_snoc (a : str) (c : N) : drop_last (a ++ [c]) = a.
Proof.
  unfold drop_last. rewrite length_app. simpl.
  replace (length a + 1 - 1) with (length a) by lia.
  apply take_app_length.
Qed.

Lemma str_all_snoc cls (a : str) (c : N) :
  str_all cls a → cls c = true → str_all cls (a ++ [c]).
Proof.
  intros Ha Hc. unfold str_all. rewrite run_length_app, length_app by done.
  simpl. by rewrite Hc.
Qed.

Lemma read_ingredients_cons lower decimal text ingredients materials w :
  str_in (lit "crafts") (lower text) = false →
  read_ingredients lower decimal (text :: ingredients) materials w
  = read_ingredients lower decimal ingredients
      match findall_first (REGEX_INGREDIENT decimal) text with
      | Some current_ingredient =>
          dict_setitem (drop_last (default [] (current_ingredient !! 0)))
                       (int decimal (default [] (current_ingredient !! 1))) materials
      | None => materials
      end
      {| blueprints := blueprints w;
         stdout := stdout w ++ [tab :: lit "- '" ++ text ++ lit "'"] |}.
Proof.
  intros Hc. cbn [read_ingredients]. rewrite Hc. unfold mbind, M_bind, print.
  by destruct (findall_first (REGEX_INGREDIENT decimal) text).
Qed.

Lemma read_ingredients_stop lower decimal text ingredients materials w :
  str_in (lit "crafts") (lower text) = true →
  read_ingredients lower decimal (text :: ingredients) materials w
  = (Returned materials, w).
Proof. intros Hc. cbn [read_ingredients]. by rewrite Hc. Qed.

Lemma ingredient_cell_match decimal sep (row : str * str) :
  decimal close_paren = None →
  sep ≠ open_paren →
  str_all (λ c, negb (c =? open_paren)%N) row.1 →
  str_all (isdigit decimal) row.2 → row.2 ≠ [] →
  findall_first (REGEX_INGREDIENT decimal) (ingredient_cell sep row)
  = Some [row.1 ++ [sep]; row.2].
Proof.
  intros Hparen Hsep Hnm Hds Hne. unfold ingredient_cell.
  rewrite (cons_middle sep), (assoc_L (++)).
  apply match_ingredient; [done| |done..].
  apply str_all_snoc; [done|]. apply negb_true_iff. by apply N.eqb_neq.
Qed.

Lemma read_ingredients_rows lower decimal sep :
  ∀ (rows : list (str * str)) materials w,
  decimal close_paren = None →
  sep ≠ open_paren →
  NoDup (materials.*1 ++ rows.*1) →
  Forall (λ row, str_all (λ c, negb (c =? open_paren)%N) row.1 ∧
                 str_all (isdigit decimal) row.2 ∧ row.2 ≠ [] ∧
                 str_in (lit "crafts") (lower (ingredient_cell sep row)) = false) rows →
  ∃ w', read_ingredients lower decimal (ingredient_cell sep <$> rows) materials w
        = (Returned (materials ++ ((λ row, (row.1, int decimal row.2)) <$> rows)), w').
Proof.
  induction rows as [|row rows IH]; intros materials w Hparen Hsep Hnd Hrows.
  - exists w. by rewrite !fmap_nil, app_nil_r.
  - apply Forall_cons in Hrows as [(Hnm & Hds & Hne & Hc) Hrows].
    rewrite fmap_cons, read_ingredients_cons, ingredient_cell_match by done.
    change (default [] ([row.1 ++ [sep]; row.2] !! 0)) with (row.1 ++ [sep]).
    change (default [] ([row.1 ++ [sep]; row.2] !! 1)) with (row.2).
    rewrite drop_last_snoc.
    rewrite fmap_cons in Hnd. cbn [fst] in Hnd.
    rewrite dict_setitem_fresh.
    + edestruct (IH (materials ++ [(row.1, int decimal row.2)])) as [w' Hw'];
        [done|done| |done|].
      * by rewrite fmap_app, <- (assoc_L (++)).
      * exists w'. rewrite Hw'. by rewrite <- (assoc_L (++)).
    + apply NoDup_app in Hnd as (_ & Hnd & _). intros Hin.
      apply (Hnd _ Hin). left.
Qed.

Lemma ingredient_cell_nonempty sep row : ingredient_cell sep row ≠ [].
Proof. unfold ingredient_cell. by destruct (row.1). Qed.

(** X18. A table written the way the wiki writes it is read back as it is.
    [decimal] is the table of the decimal digits, in which the closing
    parenthesis is not. When every cell is a name without opening
    parenthesis, one separating character (any character but the opening
    parenthesis), and a number in parentheses, the names differ and no cell
    says "crafts", the blueprint that [create_blueprint] returns has
    exactly these names, in this order, each with the value of its number.
    The separating character is dropped whatever it is. *)
Theorem create_blueprint_reads_rows (lower : str → str) (decimal : N → option N)
    (blueprint_info : str) (rows : list (str * str)) (sep : N)
    (item_type : option str) (w : World) :
  decimal close_paren = None →
  sep ≠ open_paren →
  NoDup rows.*1 →
  Forall (λ row, str_all (λ c, negb (c =? open_paren)%N) row.1 ∧
                 str_all (isdigit decimal) row.2 ∧ row.2 ≠ [] ∧
                 str_in (lit "crafts") (lower (ingredient_cell sep row)) = false) rows →
  ∃ b w',
    create_blueprint lower decimal blueprint_info (ingredient_cell sep <$> rows)
      item_type w
    = (Returned b, w') ∧
    materials b = (λ row, (row.1, int decimal row.2)) <$> rows.
Proof.
  intros Hparen Hsep Hnd Hrows. unfold create_blueprint.
  assert (Hfilter : filter (λ text, text ≠ []) (ingredient_cell sep <$> rows)
            = ingredient_cell sep <$> rows).
  { clear. induction rows as [|row rows IH]; [done|].
    rewrite fmap_cons, filter_cons, decide_True, IH; [done|].
    apply ingredient_cell_nonempty. }
  rewrite Hfilter.
  destruct (read_ingredients_rows lower decimal sep rows [] w Hparen Hsep)
    as [w' Hw']; [done..|].
  unfold mbind, M_bind. rewrite Hw'. eauto.
Qed.

Lemma create_blueprint_reads_rows_witness :
  ∃ b w',
    create_blueprint lower_latin1 decimal_arabic_indic (lit "Blueprint: Relic - Calamity")
      (ingredient_cell 160 <$> [(lit "Scrap", lit "12"); (lit "Aether Soul", [48%N; 1635%N])])
      None nested
    = (Returned b, w') ∧
    materials b
    = (λ row, (row.1, int decimal_arabic_indic row.2))
        <$> [(lit "Scrap", lit "12"); (lit "Aether Soul", [48%N; 1635%N])].
Proof.
  apply (create_blueprint_reads_rows lower_latin1 decimal_arabic_indic
           (lit "Blueprint: Relic - Calamity")
           [(lit "Scrap", lit "12"); (lit "Aether Soul", [48%N; 1635%N])] 160 None nested).
  - reflexivity.
  - discriminate.
  - apply (bool_decide_unpack _). exact I.
  - repeat constructor; simpl; try reflexivity; discriminate.
Defined.

Lemma read_ingredients_crafts lower decimal (c : str) (post : list str) :
  str_in (lit "crafts") (lower c) = true →
  ∀ pre materials w,
    read_ingredients lower decimal (pre ++ c :: post) materials w
    = read_ingredients lower decimal pre materials w.
Proof.
  intros Hc. induction pre as [|text pre IH]; intros materials w.
  - change ([] ++ c :: post) with (c :: post). by rewrite read_ingredients_stop.
  - rewrite <- app_comm_cons.
    destruct (str_in (lit "crafts") (lower text)) eqn:Ht.
    + by rewrite !read_ingredients_stop.
    + by rewrite !read_ingredients_cons, IH.
Qed.

(** X19. [create_blueprint] stops reading at the first cell whose text
    says "crafts", in any letter case: the cells after it make no difference
    to what is returned nor to what is printed. [str.lower] leaves the empty
    string empty. *)
Theorem create_blueprint_stops_at_crafts (lower : str → str) (decimal : N → option N)
    (blueprint_info : str) (pre post : list str) (c : str)
    (item_type : option str) (w : World) :
  lower [] = [] →
  str_in (lit "crafts") (lower c) = true →
  create_blueprint lower decimal blueprint_info (pre ++ c :: post) item_type w
  = create_blueprint lower decimal blueprint_info pre item_type w.
Proof.
  intros Hnil Hc. unfold create_blueprint.
  assert (Hne : c ≠ []) by (intros ->; by rewrite Hnil in Hc).
  unfold mbind, M_bind.
  by rewrite filter_app, filter_cons, decide_True, read_ingredients_crafts.
Qed.

Lemma create_blueprint_stops_at_crafts_witness :
  create_blueprint lower_ascii decimal_ascii (lit "Blueprint: Lens")
    ([lit "Scrap (2)"] ++ lit "Crafts: Lens" :: [lit "Gold (9)"]) None nested
  = create_blueprint lower_ascii decimal_ascii (lit "Blueprint: Lens")
      [lit "Scrap (2)"] None nested.
Proof.
  apply (create_blueprint_stops_at_crafts lower_ascii decimal_ascii
           (lit "Blueprint: Lens") [lit "Scrap (2)"] [lit "Gold (9)"]
           (lit "Crafts: Lens") None nested);
    reflexivity.
Defined.

Lemma replace_from_skip old new (a t : str) :
  replace_from old new (length a) (a ++ t) = replace_from old new 0 t.
Proof. induction a as [|c a IH]; [by destruct t|done]. Qed.

Lemma str_in_cons_false (old : str) (c : N) (s : str) :
  str_in old (c :: s) = false →
  bool_decide (old `prefix_of` c :: s) = false ∧ str_in old s = false.
Proof. simpl. by intros ?%orb_false_iff. Qed.

Lemma replace_absent old new (s : str) :
  str_in old s = false → replace old new s = s.
Proof.
  unfold replace. induction s as [|c s IH]; [done|].
  intros [Hp Hs]%str_in_cons_false. cbn [replace_from].
  by rewrite Hp, IH.
Qed.

Lemma replace_prefix old new (t : str) :
  old ≠ [] → replace old new (old ++ t) = new ++ replace old new t.
Proof.
  intros Hold. unfold replace. destruct old as [|c old]; [done|].
  rewrite <- app_comm_cons. cbn [replace_from].
  rewrite bool_decide_eq_true_2 by (by exists t).
  replace (length (c :: old) - 1) with (length old) by (simpl; lia).
  by rewrite replace_from_skip.
Qed.

Lemma create_blueprint_returned lower decimal blueprint_info cells item_type w w' b :
  create_blueprint lower decimal blueprint_info cells item_type w = (Returned b, w') →
  name b = replace (lit "Relic - ") [] (replace (lit "Blueprint: ") [] blueprint_info) ∧
  type b = default [] item_type.
Proof.
  unfold create_blueprint, mbind, M_bind. intros H.
  destruct (read_ingredients _ _ _ [] w) as [[ms| |] w1]; [|done..].
  injection H as <- <-. by destruct item_type.
Qed.

(** X20. The name of the blueprint is the heading without its markers: for
    a heading that is "Blueprint: " followed by the name, or by "Relic - "
    and the name, where the markers do not occur again, the blueprint that
    [create_blueprint] returns bears the name, and its type is the one that
    was given, or the empty string. *)
Theorem create_blueprint_name (lower : str → str) (decimal : N → option N)
    (rest nm : str) (cells : list str)
    (item_type : option str) (w w' : World) (b : Blueprint) :
  str_in (lit "Blueprint: ") rest = false →
  rest = lit "Relic - " ++ nm ∨ rest = nm →
  str_in (lit "Relic - ") nm = false →
  create_blueprint lower decimal (lit "Blueprint: " ++ rest) cells item_type w
  = (Returned b, w') →
  name b = nm ∧ type b = default [] item_type.
Proof.
  intros Hrest Hshape Hnm [-> ->]%create_blueprint_returned. split; [|done].
  rewrite (replace_prefix (lit "Blueprint: ") [] rest), (replace_absent _ _ rest) by done.
  change ([] ++ rest) with rest.
  destruct Hshape as [->| ->].
  - by rewrite (replace_prefix (lit "Relic - ") [] nm), (replace_absent _ _ nm).
  - by apply replace_absent.
Qed.

Lemma create_blueprint_name_witness :
  name (recipe "Calamity" [("Scrap", 2%Z)]) = lit "Calamity" ∧
  type (recipe "Calamity" [("Scrap", 2%Z)]) = default [] None.
Proof.
  apply (create_blueprint_name lower_ascii decimal_ascii
           (lit "Relic - Calamity") (lit "Calamity") [lit "Scrap (2)"] None
           nested
           {| blueprints := blueprints nested;
              stdout := [tab :: lit "- 'Scrap (2)'"] |}
           (recipe "Calamity" [("Scrap", 2%Z)])).
  - reflexivity.
  - by left.
  - reflexivity.
  - reflexivity.
Defined.
